(** * going: sequential and concurrent Map / Filter / Reduce

    A shallow embedding of the Go package [going] (going.go and its
    concurrent extension with CMap, CFilter and CReduce), together with the
    closures used by the package's tests.

    - A Go [int] is a [Z] wrapped to 64 bits, two's complement.
    - A slice value handed back to a caller is a [slice]: either [nil] or a
      sequence of elements.  Inside a function a slice is what Go makes of
      it: a [header] (pointer, length, capacity) into a heap of backing
      arrays, so that [append] on a shared slice variable can be followed
      access by access.
    - Indexing out of range and a negative WaitGroup counter are run-time
      panics: the operations that can raise them return [option].
    - A goroutine is a small state machine whose steps are single memory
      accesses or single calls of the caller's function; a call of a
      concurrent variant is run under a schedule, the list of goroutine
      numbers the scheduler picks, one step each.  Each access is
      indivisible.  For the accesses that race this is what Go promises of
      a location of at most one machine word; what is proved of all
      schedules of the unsynchronised variants is therefore stated for
      elements and accumulators of type int.
    - The caller's function is a total pure function, as the package
      assumes, except in the section on panics, where it and [==] can
      panic. *)

From Stdlib Require Import ZArith Lia.
From stdpp Require Import base option list strings numbers.

Module going.

Local Open Scope Z_scope.

(** ** Go's [int] on a 64-bit platform *)

Definition wrap64 (z : Z) : Z := (z + 2 ^ 63) mod 2 ^ 64 - 2 ^ 63.
Definition int_add (a b : Z) : Z := wrap64 (a + b).
Definition int_mul (a b : Z) : Z := wrap64 (a * b).
(** [%] truncates toward zero. *)
Definition int_rem (a b : Z) : Z := Z.rem a b.

Local Close Scope Z_scope.

(** ** Slices *)

(** What a caller sees of a returned slice. *)
Inductive slice (A : Type) : Type :=
  | nil_slice : slice A
  | mk_slice (es : list A) : slice A.
Arguments nil_slice {A}.
Arguments mk_slice {A} es.

Definition elems {A} (s : slice A) : list A :=
  match s with
  | nil_slice => []
  | mk_slice es => es
  end.

Definition len_of {A} (s : slice A) : nat := length (elems s).

(** [make([]A, n)]: an array of [n] zero values. *)
Definition make {A} (zero : A) (n : nat) : list A := replicate n zero.

(** [a[i] = x]; [None] is the index-out-of-range panic. *)
Definition store {A} (i : nat) (x : A) (a : list A) : option (list A) :=
  if i <? length a then Some (<[i := x]> a) else None.

(** A slice header: backing array (its position in the heap), length,
    capacity. *)
Record header : Type := Header { ptr : nat; len : nat; cap : nat }.

(** The slice a header denotes in a heap of backing arrays. *)
Definition view {A} (hp : list (list A)) (h : header) : option (list A) :=
  a ← hp !! ptr h; Some (take (len h) a).

Section Append.
Context {A : Type}.
(** The runtime's growth policy (old capacity, needed length) is not part
    of the package; a grown array is never shorter than needed. *)
Variable growcap : nat → nat → nat.
Variable zero : A.

(** The body of [append(s, v)] for the slice with header [h]: write into
    the spare capacity of the backing array when there is some, move to a
    fresh and larger array otherwise.  The new header is returned to the
    caller, who assigns it. *)
Definition append_to (hp : list (list A)) (h : header) (v : A)
  : option (list (list A) * header) :=
  a ← hp !! ptr h;
  if len h <? cap h then
    a' ← store (len h) v a;
    Some (<[ptr h := a']> hp, Header (ptr h) (S (len h)) (cap h))
  else
    let a' := take (len h) a ++
              v :: replicate (growcap (cap h) (S (len h)) - S (len h)) zero in
    Some (hp ++ [a'], Header (length hp) (S (len h)) (length a')).
End Append.

(** ** The sequential operations (going.go) *)

(** The [error] interface as far as the package uses it: [nil] or the
    message given to [fmt.Errorf]. *)
Definition error : Type := option string.
Definition Errorf (msg : string) : error := Some msg.

Section Sequential.
Context {T U R St : Type}.
Variable zeroT : T.
Variable zeroU : U.
Variable growcap : nat → nat → nat.
(** [==] on a comparable type. *)
Variable eqb : T → T → bool.

(** [for i, v := range list { result[i] = f(v) }] *)
Fixpoint Map_loop (f : T → U) (i : nat) (vs : list T) (result : list U)
  : option (list U) :=
  match vs with
  | [] => Some result
  | v :: rest => result' ← store i (f v) result; Map_loop f (i + 1) rest result'
  end.

Definition Map (xs : list T) (f : T → U) : option (slice U) :=
  result ← Map_loop f 0 xs (make zeroU (length xs));
  Some (mk_slice result).

(** [for _, v := range list { if f(v) { result = append(result, v) } }] *)
Fixpoint Filter_loop (f : T → bool) (vs : list T)
    (hp : list (list T)) (result : header) : option (list (list T) * header) :=
  match vs with
  | [] => Some (hp, result)
  | v :: rest =>
      if f v then
        '(hp', result') ← append_to growcap zeroT hp result v;
        Filter_loop f rest hp' result'
      else Filter_loop f rest hp result
  end.

(** [result := make([]T, 0, len(list))] and the loop: the backing arrays
    and the header of [result] when the loop ends. *)
Definition Filter_run (xs : list T) (f : T → bool)
  : option (list (list T) * header) :=
  Filter_loop f xs [make zeroT (length xs)] (Header 0 0 (length xs)).

Definition Filter (xs : list T) (f : T → bool) : option (slice T) :=
  '(hp, result) ← Filter_run xs f;
  es ← view hp result;
  Some (mk_slice es).

Fixpoint Reduce_loop (reducer : R → T → R) (vs : list T) (acc : R) : R :=
  match vs with
  | [] => acc
  | item :: rest => Reduce_loop reducer rest (reducer acc item)
  end.

Definition Reduce (xs : list T) (reducer : R → T → R) (initial : R) : R :=
  Reduce_loop reducer xs initial.

(** [f] returns nothing; what it does is a change of the caller's state. *)
Fixpoint ForEach (xs : list T) (f : T → St → St) (s : St) : St :=
  match xs with
  | [] => s
  | v :: rest => ForEach rest f (f v s)
  end.

Fixpoint Contains (xs : list T) (target : T) : bool :=
  match xs with
  | [] => false
  | v :: rest => if eqb v target then true else Contains rest target
  end.

Fixpoint IndexOf_loop (i : Z) (vs : list T) (target : T) : Z * error :=
  match vs with
  | [] => ((-1)%Z, Errorf "element not found")
  | v :: rest =>
      if eqb v target then (i, None) else IndexOf_loop (i + 1)%Z rest target
  end.

Definition IndexOf (xs : list T) (target : T) : Z * error :=
  IndexOf_loop 0%Z xs target.
End Sequential.

(** ** The sequential operations when a call can panic

    The caller's function is a Go function value and [==] is the
    comparison of a [comparable] type parameter; either can panic at run
    time (a nil function; interface operands of one uncomparable dynamic
    type).  Here such a call returns [option], [None] for the panic, and a
    panic ends the operation.  With calls that always return, these are the
    operations above. *)

Section Panics.
Context {T U R St : Type}.
Variable zeroT : T.
Variable zeroU : U.
Variable growcap : nat → nat → nat.

Fixpoint Map_p_loop (f : T → option U) (i : nat) (vs : list T) (result : list U)
  : option (list U) :=
  match vs with
  | [] => Some result
  | v :: rest =>
      r ← f v; result' ← store i r result; Map_p_loop f (i + 1) rest result'
  end.

Definition Map_p (xs : list T) (f : T → option U) : option (slice U) :=
  result ← Map_p_loop f 0 xs (make zeroU (length xs));
  Some (mk_slice result).

Fixpoint Filter_p_loop (f : T → option bool) (vs : list T)
    (hp : list (list T)) (result : header) : option (list (list T) * header) :=
  match vs with
  | [] => Some (hp, result)
  | v :: rest =>
      keep ← f v;
      if keep : bool then
        '(hp', result') ← append_to growcap zeroT hp result v;
        Filter_p_loop f rest hp' result'
      else Filter_p_loop f rest hp result
  end.

Definition Filter_p (xs : list T) (f : T → option bool) : option (slice T) :=
  '(hp, result) ← Filter_p_loop f xs [make zeroT (length xs)]
                                     (Header 0 0 (length xs));
  es ← view hp result;
  Some (mk_slice es).

Fixpoint Reduce_p_loop (reducer : R → T → option R) (vs : list T) (acc : R)
  : option R :=
  match vs with
  | [] => Some acc
  | item :: rest => acc' ← reducer acc item; Reduce_p_loop reducer rest acc'
  end.

Definition Reduce_p (xs : list T) (reducer : R → T → option R) (initial : R)
  : option R :=
  Reduce_p_loop reducer xs initial.

Fixpoint ForEach_p (xs : list T) (f : T → St → option St) (s : St) : option St :=
  match xs with
  | [] => Some s
  | v :: rest => s' ← f v s; ForEach_p rest f s'
  end.

Fixpoint Contains_p (eq : T → T → option bool) (xs : list T) (target : T)
  : option bool :=
  match xs with
  | [] => Some false
  | v :: rest =>
      same ← eq v target;
      if same : bool then Some true else Contains_p eq rest target
  end.

Fixpoint IndexOf_p_loop (eq : T → T → option bool) (i : Z) (vs : list T)
    (target : T) : option (Z * error) :=
  match vs with
  | [] => Some ((-1)%Z, Errorf "element not found")
  | v :: rest =>
      same ← eq v target;
      if same : bool then Some (i, None)
      else IndexOf_p_loop eq (i + 1)%Z rest target
  end.

Definition IndexOf_p (eq : T → T → option bool) (xs : list T) (target : T)
  : option (Z * error) :=
  IndexOf_p_loop eq 0%Z xs target.
End Panics.




(** ** The fan-out / fan-in engine

    [wg.Add(len(list))], one [go func] per element, [wg.Wait()].  Spawning
    a goroutine touches none of the memory the goroutines work on, so every
    run is one in which all goroutines exist before the first of them takes
    a step; a run is then the order in which the scheduler lets them step. *)

(** How a call under a given schedule ends: it returns, it is still
    waiting at [wg.Wait()] when the schedule is used up, or it panics. *)
Inductive outcome (A : Type) : Type :=
  | Returned (a : A) : outcome A
  | Blocked : outcome A
  | Panicked : outcome A.
Arguments Returned {A} a.
Arguments Blocked {A}.
Arguments Panicked {A}.

(** Memory the goroutines of one call share: the captured variable
    ([result] or [acc]) and the elements of backing arrays. *)
Inductive location : Type :=
  | Var : location
  | Elem (array index : nat) : location.

Global Instance location_eq_dec : EqDecision location.
Proof. solve_decision. Defined.

Record access : Type := Access { loc : location; is_write : bool }.

(** Two accesses conflict when they touch the same location and one of
    them writes. *)
Definition conflict (a b : access) : bool :=
  bool_decide (loc a = loc b) && (is_write a || is_write b).

Section Engine.
Context {Sh Pc : Type}.
(** One step of a goroutine at program point [pc] on the shared memory:
    the new memory and the next program point, [None] when the function
    body has ended. *)
Variable step : Pc → Sh → option (Sh * option Pc).
(** The shared accesses the step at a program point makes. *)
Variable pending : Pc → list access.

(** Shared memory, WaitGroup counter, and the goroutines ([None] for one
    that has ended). *)
Record config : Type :=
  Config { shared : Sh; wg : nat; goroutines : list (option Pc) }.

(** [wg.Done()]: a counter going negative panics. *)
Definition wg_done (n : nat) : option nat :=
  match n with
  | O => None
  | S m => Some m
  end.

(** The scheduler lets goroutine [k] take one step; the deferred
    [wg.Done()] runs when the body ends.  Picking a goroutine that has
    ended, or none, changes nothing. *)
Definition fire (k : nat) (c : config) : option config :=
  match goroutines c !! k with
  | Some (Some pc) =>
      '(m, next) ← step pc (shared c);
      match next with
      | Some pc' => Some (Config m (wg c) (<[k := Some pc']> (goroutines c)))
      | None => n ← wg_done (wg c);
                Some (Config m n (<[k := None]> (goroutines c)))
      end
  | _ => Some c
  end.

Fixpoint run (sched : list nat) (c : config) : option config :=
  match sched with
  | [] => Some c
  | k :: rest => c' ← fire k c; run rest c'
  end.

(** [wg.Wait(); return ...]: the caller goes on once the counter is 0. *)
Definition wait {A} (ret : Sh → option A) (sched : list nat) (c : config)
  : outcome A :=
  match run sched c with
  | None => Panicked
  | Some c' =>
      if wg c' =? 0 then
        match ret (shared c') with
        | Some a => Returned a
        | None => Panicked
        end
      else Blocked
  end.

(** A data race: two goroutines that have not ended are each about to
    make an access, the two accesses conflict, and nothing orders them
    (the package uses no lock, channel or atomic between goroutines). *)
Definition accesses_of (g : option Pc) : list access :=
  match g with
  | Some pc => pending pc
  | None => []
  end.

Fixpoint race_among (gs : list (list access)) : bool :=
  match gs with
  | [] => false
  | g :: rest =>
      existsb (λ h, existsb (λ a, existsb (conflict a) h) g) rest
      || race_among rest
  end.

Definition has_race (c : config) : bool :=
  race_among (accesses_of <$> goroutines c).
End Engine.

Arguments config : clear implicits.
Arguments Config {Sh Pc} shared wg goroutines.

(** The two ways through a concurrent variant: the [return] under the
    length test, before any WaitGroup exists, or the fan-out, which declares
    the WaitGroup, sets its counter with [wg.Add], starts the goroutines and
    calls [wg.Wait()] before it returns. *)
Inductive path (Sh Pc A : Type) : Type :=
  | Early (a : A) : path Sh Pc A
  | FanOut (step : Pc → Sh → option (Sh * option Pc)) (ret : Sh → option A)
           (c : config Sh Pc) : path Sh Pc A.
Arguments Early {Sh Pc A} a.
Arguments FanOut {Sh Pc A} step ret c.

Definition follow {Sh Pc A} (sched : list nat) (p : path Sh Pc A) : outcome A :=
  match p with
  | Early a => Returned a
  | FanOut step ret c => wait step ret sched c
  end.

(** ** The concurrent variants *)

Inductive cmap_pc (T U : Type) : Type :=
  | MCall (i : nat) (v : T)      (* about to call f(v) *)
  | MStore (i : nat) (r : U).    (* about to assign result[i] *)
Arguments MCall {T U} i v.
Arguments MStore {T U} i r.

Inductive cfilter_pc (T : Type) : Type :=
  | FCall (v : T)                 (* about to call f(v) *)
  | FLoad (v : T)                 (* about to read result *)
  | FAppend (h : header) (v : T)  (* inside append(result, v) *)
  | FStore (h : header).          (* about to assign result *)
Arguments FCall {T} v.
Arguments FLoad {T} v.
Arguments FAppend {T} h v.
Arguments FStore {T} h.

Inductive creduce_pc (T R : Type) : Type :=
  | RLoad (v : T)                 (* about to read acc *)
  | RCall (a : R) (v : T)         (* about to call reducer(a, v) *)
  | RStore (r : R).               (* about to assign acc *)
Arguments RLoad {T R} v.
Arguments RCall {T R} a v.
Arguments RStore {T R} r.

(** The memory of a CFilter call: the backing arrays and the variable
    [result]. *)
Record fmem (T : Type) : Type := Fmem { arrays : list (list T); result : header }.
Arguments Fmem {T} arrays result.
Arguments arrays {T} f.
Arguments result {T} f.

Section Concurrent.
Context {T U R : Type}.
Variable zeroT : T.
Variable zeroU : U.
Variable growcap : nat → nat → nat.

(** [go func(i int, v T) { defer wg.Done(); result[i] = f(v) }(i, v)] *)
Definition cmap_step (f : T → U) (pc : cmap_pc T U) (result : list U)
  : option (list U * option (cmap_pc T U)) :=
  match pc with
  | MCall i v => Some (result, Some (MStore i (f v)))
  | MStore i r => result' ← store i r result; Some (result', None)
  end.

Definition cmap_pending (pc : cmap_pc T U) : list access :=
  match pc with
  | MCall _ _ => []
  | MStore i _ => [Access (Elem 0 i) true]
  end.

Definition cmap_init (xs : list T) : config (list U) (cmap_pc T U) :=
  Config (make zeroU (length xs)) (length xs)
         (imap (λ i v, Some (MCall i v)) xs).

Definition CMap_path (xs : list T) (f : T → U)
  : path (list U) (cmap_pc T U) (slice U) :=
  if length xs =? 0 then Early nil_slice
  else FanOut (cmap_step f) (λ result, Some (mk_slice result)) (cmap_init xs).

Definition CMap (sched : list nat) (xs : list T) (f : T → U)
  : outcome (slice U) :=
  follow sched (CMap_path xs f).

(** [go func(v T) { defer wg.Done()
                    if f(v) { result = append(result, v) } }(v)] *)
Definition cfilter_step (f : T → bool) (pc : cfilter_pc T) (m : fmem T)
  : option (fmem T * option (cfilter_pc T)) :=
  match pc with
  | FCall v => Some (m, if f v then Some (FLoad v) else None)
  | FLoad v => Some (m, Some (FAppend (result m) v))
  | FAppend h v =>
      '(hp, h') ← append_to growcap zeroT (arrays m) h v;
      Some (Fmem hp (result m), Some (FStore h'))
  | FStore h => Some (Fmem (arrays m) h, None)
  end.

Definition cfilter_pending (pc : cfilter_pc T) : list access :=
  match pc with
  | FCall _ => []
  | FLoad _ => [Access Var false]
  | FAppend h _ =>
      if len h <? cap h then [Access (Elem (ptr h) (len h)) true]
      else (λ i, Access (Elem (ptr h) i) false) <$> seq 0 (len h)
  | FStore _ => [Access Var true]
  end.

Definition cfilter_init (xs : list T) : config (fmem T) (cfilter_pc T) :=
  Config (Fmem [make zeroT (length xs)] (Header 0 0 (length xs)))
         (length xs)
         ((λ v, Some (FCall v)) <$> xs).

Definition CFilter_path (xs : list T) (f : T → bool)
  : path (fmem T) (cfilter_pc T) (slice T) :=
  if length xs =? 0 then Early nil_slice
  else FanOut (cfilter_step f)
              (λ m, es ← view (arrays m) (result m); Some (mk_slice es))
              (cfilter_init xs).

Definition CFilter (sched : list nat) (xs : list T) (f : T → bool)
  : outcome (slice T) :=
  follow sched (CFilter_path xs f).

(** [go func(v T) { defer wg.Done(); acc = reducer(acc, v) }(v)] *)
Definition creduce_step (reducer : R → T → R) (pc : creduce_pc T R) (acc : R)
  : option (R * option (creduce_pc T R)) :=
  match pc with
  | RLoad v => Some (acc, Some (RCall acc v))
  | RCall a v => Some (acc, Some (RStore (reducer a v)))
  | RStore r => Some (r, None)
  end.

Definition creduce_pending (pc : creduce_pc T R) : list access :=
  match pc with
  | RLoad _ => [Access Var false]
  | RCall _ _ => []
  | RStore _ => [Access Var true]
  end.

Definition creduce_init (xs : list T) (initial : R)
  : config R (creduce_pc T R) :=
  Config initial (length xs) ((λ v, Some (RLoad v)) <$> xs).

Definition CReduce_path (xs : list T) (reducer : R → T → R) (initial : R)
  : path R (creduce_pc T R) R :=
  if length xs =? 0 then Early initial
  else FanOut (creduce_step reducer) Some (creduce_init xs initial).

Definition CReduce (sched : list nat) (xs : list T) (reducer : R → T → R)
    (initial : R) : outcome R :=
  follow sched (CReduce_path xs reducer initial).
End Concurrent.

(** ** The closures of the tests (going_test.go) *)

Definition square (x : Z) : Z := int_mul x x.
Definition isOdd (x : Z) : bool := (int_rem x 2 =? 1)%Z.
Definition sum (acc item : Z) : Z := int_add acc item.
Definition double (x : Z) : Z := int_mul x 2.

(** ** Invariants of a CMap run *)

(** The goroutines that have not ended. *)
Fixpoint live {Pc} (gs : list (option Pc)) : nat :=
  match gs with
  | [] => 0
  | Some _ :: rest => S (live rest)
  | None :: rest => live rest
  end.

(** Steps a CMap goroutine still has to take. *)
Definition cmap_todo {T U} (g : option (option (cmap_pc T U))) : nat :=
  match g with
  | Some (Some (MCall _ _)) => 2
  | Some (Some (MStore _ _)) => 1
  | _ => 0
  end.

(** Goroutine [k] works on element [k] and on slot [k] alone; once it has
    ended, slot [k] holds [f] of element [k]; the counter counts the
    goroutines that have not ended. *)
Definition cmap_inv {T U} (f : T → U) (xs : list T)
    (c : config (list U) (cmap_pc T U)) : Prop :=
  length (shared c) = length xs
  ∧ length (goroutines c) = length xs
  ∧ wg c = live (goroutines c)
  ∧ ∀ (k : nat) (v : T), xs !! k = Some v →
      match goroutines c !! k with
      | Some (Some (MCall i v')) => i = k ∧ v' = v
      | Some (Some (MStore i r)) => i = k ∧ r = f v
      | Some None => shared c !! k = Some (f v)
      | None => False
      end.

(** The four states of a CReduce call with one goroutine. *)
Definition creduce_single_inv {T R} (reducer : R → T → R) (initial : R) (x : T)
    (c : config R (creduce_pc T R)) : Prop :=
  c = Config initial 1 [Some (RLoad x)]
  ∨ c = Config initial 1 [Some (RCall initial x)]
  ∨ c = Config initial 1 [Some (RStore (reducer initial x))]
  ∨ c = Config (reducer initial x) 0 [None].

(** ** Invariants of a CReduce run *)

(** The elements of [xs] at the positions [ks], in the order of [ks]. *)
Definition pick {T} (xs : list T) (ks : list nat) : list T :=
  omap (λ k, xs !! k) ks.

(** A goroutine that has computed its new accumulator, or has ended. *)
Definition creduce_passed {T R} (g : option (option (creduce_pc T R))) : Prop :=
  match g with
  | Some (Some (RStore _)) | Some None => True
  | _ => False
  end.

(** Steps a CReduce goroutine still has to take. *)
Definition creduce_todo {T R} (g : option (option (creduce_pc T R))) : nat :=
  match g with
  | Some (Some (RLoad _)) => 3
  | Some (Some (RCall _ _)) => 2
  | Some (Some (RStore _)) => 1
  | _ => 0
  end.

(** [val] is the fold of the elements at the distinct positions [ks], each
    the element of a goroutine that has computed its new accumulator. *)
Definition creduce_chain {T R} (reducer : R → T → R) (initial : R) (xs : list T)
    (gs : list (option (creduce_pc T R))) (ks : list nat) (val : R) : Prop :=
  NoDup ks
  ∧ (∀ k, k ∈ ks → creduce_passed (gs !! k) ∧ is_Some (xs !! k))
  ∧ val = Reduce (pick xs ks) reducer initial.

(** What is known of goroutine [k] at program point [pc]. *)
Definition creduce_pc_ok {T R} (reducer : R → T → R) (initial : R) (xs : list T)
    (gs : list (option (creduce_pc T R))) (k : nat) (pc : creduce_pc T R) : Prop :=
  match pc with
  | RLoad v => xs !! k = Some v
  | RCall a v =>
      xs !! k = Some v ∧ ∃ ks, creduce_chain reducer initial xs gs ks a
  | RStore r => ∃ ks, ks ≠ [] ∧ creduce_chain reducer initial xs gs ks r
  end.

Definition creduce_inv {T R} (reducer : R → T → R) (initial : R) (xs : list T)
    (c : config R (creduce_pc T R)) : Prop :=
  length (goroutines c) = length xs
  ∧ wg c = live (goroutines c)
  ∧ (∃ ks, creduce_chain reducer initial xs (goroutines c) ks (shared c)
           ∧ (ks = [] → ∀ k, goroutines c !! k ≠ Some None))
  ∧ ∀ (k : nat) (pc : creduce_pc T R), goroutines c !! k = Some (Some pc) →
      creduce_pc_ok reducer initial xs (goroutines c) k pc.

(** ** Invariants of a CFilter run *)

(** A goroutine that has left [append], or has ended. *)
Definition cfilter_passed {T} (g : option (option (cfilter_pc T))) : Prop :=
  match g with
  | Some (Some (FStore _)) | Some None => True
  | _ => False
  end.

(** Steps a CFilter goroutine still has to take, at most. *)
Definition cfilter_todo {T} (g : option (option (cfilter_pc T))) : nat :=
  match g with
  | Some (Some (FCall _)) => 4
  | Some (Some (FLoad _)) => 3
  | Some (Some (FAppend _ _)) => 2
  | Some (Some (FStore _)) => 1
  | _ => 0
  end.

(** A header of the one backing array whose length stays within the part
    of the array written so far ([ws] lists the writers of that part). *)
Definition hdr_ok (n : nat) (ws : list nat) (h : header) : Prop :=
  ptr h = 0 ∧ cap h = n ∧ len h ≤ length ws.

(** Element [i] of the array was last written by goroutine [ws !! i], with
    its own input element, which satisfies the predicate; no goroutine is
    the last writer of two elements. *)
Definition cfilter_written {T} (f : T → bool) (xs : list T)
    (gs : list (option (cfilter_pc T))) (a : list T) (ws : list nat) : Prop :=
  NoDup ws
  ∧ ∀ (i k : nat), ws !! i = Some k →
      cfilter_passed (gs !! k) ∧ ∃ x, xs !! k = Some x ∧ f x = true ∧ a !! i = Some x.

Definition cfilter_pc_ok {T} (f : T → bool) (xs : list T) (ws : list nat)
    (k : nat) (pc : cfilter_pc T) : Prop :=
  match pc with
  | FCall v => xs !! k = Some v
  | FLoad v => xs !! k = Some v ∧ f v = true
  | FAppend h v => xs !! k = Some v ∧ f v = true ∧ hdr_ok (length xs) ws h
  | FStore h => hdr_ok (length xs) ws h
  end.

Definition cfilter_inv {T} (f : T → bool) (xs : list T)
    (c : config (fmem T) (cfilter_pc T)) : Prop :=
  ∃ (a : list T) (ws : list nat),
    arrays (shared c) = [a]
    ∧ length a = length xs
    ∧ length (goroutines c) = length xs
    ∧ wg c = live (goroutines c)
    ∧ cfilter_written f xs (goroutines c) a ws
    ∧ hdr_ok (length xs) ws (result (shared c))
    ∧ ∀ (k : nat) (pc : cfilter_pc T), goroutines c !! k = Some (Some pc) →
        cfilter_pc_ok f xs ws k pc.

(** ** Running the goroutines one after the other *)

(** The schedule that lets the goroutines run in the order they were
    started, each for [steps] steps before the next one starts. *)
Definition in_turn (steps n : nat) : list nat :=
  flat_map (λ k, replicate steps k) (seq 0 n).

(** * Properties *)

(** ** The concurrent variants along their two paths *)

Lemma CMap_eq {T U} (zero : U) (sched : list nat) (xs : list T) (f : T → U) :
  CMap zero sched xs f
  = if length xs =? 0 then Returned nil_slice
    else wait (cmap_step f) (λ result, Some (mk_slice result)) sched
              (cmap_init zero xs).
Proof. unfold CMap, CMap_path. by destruct (length xs =? 0). Qed.

Lemma CFilter_eq {T} (zero : T) (growcap : nat → nat → nat) (sched : list nat)
    (xs : list T) (f : T → bool) :
  CFilter zero growcap sched xs f
  = if length xs =? 0 then Returned nil_slice
    else wait (cfilter_step zero growcap f)
              (λ m, es ← view (arrays m) (result m); Some (mk_slice es))
              sched (cfilter_init zero xs).
Proof. unfold CFilter, CFilter_path. by destruct (length xs =? 0). Qed.

Lemma CReduce_eq {T R} (sched : list nat) (xs : list T) (reducer : R → T → R)
    (initial : R) :
  CReduce sched xs reducer initial
  = if length xs =? 0 then Returned initial
    else wait (creduce_step reducer) Some sched (creduce_init xs initial).
Proof. unfold CReduce, CReduce_path. by destruct (length xs =? 0). Qed.

(** ** Stores and the sequential loops *)

Lemma store_Some {A} (i : nat) (x : A) (a : list A) :
  i < length a → store i x a = Some (<[i := x]> a).
Proof.
  intros Hi. unfold store.
  destruct (Nat.ltb_spec i (length a)); [done | lia].
Qed.

Lemma store_None {A} (i : nat) (x : A) (a : list A) :
  length a ≤ i → store i x a = None.
Proof.
  intros Hi. unfold store.
  destruct (Nat.ltb_spec i (length a)); [lia | done].
Qed.

(** [append] allocates a new backing array exactly when the slice is
    full. *)
Lemma append_to_heap_length {A} growcap (zero : A) (hp hp' : list (list A))
    (h h' : header) (v : A) :
  append_to growcap zero hp h v = Some (hp', h') →
  length hp' = if len h <? cap h then length hp else S (length hp).
Proof.
  unfold append_to. destruct (hp !! ptr h) as [a|]; simpl; [|done].
  destruct (len h <? cap h).
  - destruct (store (len h) v a); simpl; [|done].
    intros [= <- <-]. by rewrite length_insert.
  - intros [= <- <-]. rewrite length_app. simpl. lia.
Qed.

Lemma Map_loop_fmap {T U} (f : T → U) (vs : list T) :
  ∀ (i : nat) (result : list U),
    length result = i + length vs →
    Map_loop f i vs result = Some (take i result ++ (f <$> vs)).
Proof.
  induction vs as [|v rest IH]; intros i result Hlen; simpl in *.
  - by rewrite app_nil_r, take_ge by lia.
  - rewrite store_Some by lia. simpl.
    rewrite IH by (rewrite length_insert; lia).
    replace (i + 1) with (S i) by lia.
    rewrite (take_S_r _ _ (f v)) by (apply list_lookup_insert_eq; lia).
    by rewrite take_insert_ge, <- app_assoc by lia.
Qed.

Lemma Map_fmap {T U} (zero : U) (xs : list T) (f : T → U) :
  Map zero xs f = Some (mk_slice (f <$> xs)).
Proof.
  unfold Map, make.
  rewrite Map_loop_fmap by (rewrite length_replicate; lia).
  done.
Qed.

Lemma Filter_loop_filter {T} (zero : T) growcap (f : T → bool) (vs : list T) (n : nat) :
  ∀ (a : list T) (k : nat),
    length a = n → k + length vs ≤ n →
    ∃ a', Filter_loop zero growcap f vs [a] (Header 0 k n)
          = Some ([a'], Header 0 (k + length (List.filter f vs)) n)
          ∧ length a' = n
          ∧ take (k + length (List.filter f vs)) a' = take k a ++ List.filter f vs.
Proof.
  induction vs as [|v rest IH]; intros a k Ha Hk; simpl in *.
  - exists a. by rewrite Nat.add_0_r, app_nil_r.
  - destruct (f v) eqn:Hf; simpl.
    + unfold append_to. simpl.
      destruct (Nat.ltb_spec k n) as [Hlt|]; [|lia].
      rewrite store_Some by lia. simpl.
      destruct (IH (<[k := v]> a) (S k)) as (a' & Hrun & Hlen & Htake);
        [by rewrite length_insert | lia |].
      exists a'. rewrite Hrun. split_and!; [f_equal; f_equal; f_equal; lia | done |].
      replace (k + S (length (List.filter f rest)))
        with (S k + length (List.filter f rest)) by lia.
      rewrite Htake, (take_S_r _ _ v) by (apply list_lookup_insert_eq; lia).
      by rewrite take_insert_ge, <- app_assoc by lia.
    + destruct (IH a k) as (a' & Hrun & Hlen & Htake); [done | lia |].
      by exists a'.
Qed.

Lemma Filter_filter {T} (zero : T) growcap (xs : list T) (f : T → bool) :
  Filter zero growcap xs f = Some (mk_slice (List.filter f xs)).
Proof.
  unfold Filter, Filter_run, make.
  destruct (Filter_loop_filter zero growcap f xs (length xs)
              (replicate (length xs) zero) 0) as (a' & -> & Hlen & Htake);
    [by rewrite length_replicate | lia |].
  simpl in *. unfold view. simpl. by rewrite Htake.
Qed.

Lemma Reduce_fold_left {T R} (xs : list T) (reducer : R → T → R) (initial : R) :
  Reduce xs reducer initial = fold_left reducer xs initial.
Proof.
  unfold Reduce. revert initial.
  induction xs as [|x xs IH]; intros initial; simpl; [done | apply IH].
Qed.

Lemma ForEach_fold_left {T St} (xs : list T) (f : T → St → St) (s : St) :
  ForEach xs f s = fold_left (λ s v, f v s) xs s.
Proof.
  revert s. induction xs as [|x xs IH]; intros s; simpl; [done | apply IH].
Qed.

(** ** Contains and IndexOf *)

Lemma Contains_Exists {T} (eqb : T → T → bool) (xs : list T) (t : T) :
  Contains eqb xs t = true ↔ Exists (λ v, eqb v t = true) xs.
Proof.
  induction xs as [|x xs IH]; simpl.
  - split; [done | by inversion 1].
  - destruct (eqb x t) eqn:Hx.
    + split; [by left | done].
    + rewrite IH. split; [by right |].
      inversion 1; subst; [congruence | done].
Qed.

(** The loop either stops at the first element equal to the target, or
    runs off the end with the error. *)
Lemma IndexOf_loop_cases {T} (eqb : T → T → bool) (vs : list T) (t : T) :
  ∀ i : Z,
    (∃ (n : nat) (v : T),
        IndexOf_loop eqb i vs t = ((i + Z.of_nat n)%Z, None)
        ∧ vs !! n = Some v ∧ eqb v t = true
        ∧ ∀ (m : nat) (w : T), vs !! m = Some w → eqb w t = true → n ≤ m)
    ∨ (IndexOf_loop eqb i vs t = ((-1)%Z, Errorf "element not found")
       ∧ Forall (λ v, eqb v t = false) vs).
Proof.
  induction vs as [|v rest IH]; intros i; simpl.
  - right. by split.
  - destruct (eqb v t) eqn:Hv.
    + left. exists 0, v. rewrite Z.add_0_r. split_and!; [done..|]. intros; lia.
    + destruct (IH (i + 1)%Z) as [(n & w & Hrun & Hn & Hw & Hmin)|[Hrun Hall]].
      * left. exists (S n), w. rewrite Hrun. split_and!; [f_equal; lia | done..|].
        intros [|m] w' Hm Hw'; simpl in *; [congruence|].
        specialize (Hmin m w' Hm Hw'). lia.
      * right. split; [done | by constructor].
Qed.

Lemma Exists_Forall_false {T} (P : T → bool) (xs : list T) :
  Exists (λ v, P v = true) xs → Forall (λ v, P v = false) xs → False.
Proof.
  intros Hex Hall. apply Exists_exists in Hex as (v & Hin & Hv).
  rewrite Forall_forall in Hall. specialize (Hall v Hin). congruence.
Qed.

Lemma Exists_lookup {T} (P : T → Prop) (xs : list T) (n : nat) (v : T) :
  xs !! n = Some v → P v → Exists P xs.
Proof.
  revert n. induction xs as [|x xs IH]; intros [|n] Hn Hv; simpl in *; try done.
  - injection Hn as ->. by left.
  - right. by apply IH with n.
Qed.

(** ** The sequential claims *)

(** C6: for every list [xs] and function [f], the sequential [Map] returns
    (it never panics on an index) a slice as long as [xs] whose i-th element
    is [f] of the i-th element of [xs], at every index [i]. *)
Theorem Map_pointwise {T U} (zero : U) (xs : list T) (f : T → U) :
  ∃ r : slice U,
    Map zero xs f = Some r
    ∧ len_of r = length xs
    ∧ ∀ i : nat, elems r !! i = f <$> xs !! i.
Proof.
  exists (mk_slice (f <$> xs)). split_and!.
  - apply Map_fmap.
  - unfold len_of. simpl. apply length_fmap.
  - intros i. simpl. apply list_lookup_fmap.
Qed.

(** *** Calls that can panic *)

(** Where every call the operation makes returns, the operation is the one
    of the embedding without panics. *)
Lemma Map_p_loop_returns {T U} (f : T → option U) (g : T → U) (vs : list T) :
  Forall (λ v, f v = Some (g v)) vs →
  ∀ (i : nat) (result : list U),
    Map_p_loop f i vs result = Map_loop g i vs result.
Proof.
  induction 1 as [|v rest Hv _ IH]; intros i result; simpl; [done|].
  rewrite Hv. simpl. destruct (store i (g v) result); simpl; [apply IH | done].
Qed.

Lemma Filter_p_loop_returns {T} (zero : T) growcap (f : T → option bool)
    (g : T → bool) (vs : list T) :
  Forall (λ v, f v = Some (g v)) vs →
  ∀ (hp : list (list T)) (result : header),
    Filter_p_loop zero growcap f vs hp result
    = Filter_loop zero growcap g vs hp result.
Proof.
  induction 1 as [|v rest Hv _ IH]; intros hp result; simpl; [done|].
  rewrite Hv. simpl. destruct (g v); [|apply IH].
  destruct (append_to growcap zero hp result v) as [[hp' result']|]; simpl;
    [apply IH | done].
Qed.






(** With a function and a [==] that cannot panic, the operations with
    panics are those without. *)
Lemma panic_free_operations {T U R St} (zeroT : T) (zeroU : U)
    (growcap : nat → nat → nat) (eqb : T → T → bool) (f : T → U) (p : T → bool)
    (reducer : R → T → R) (initial : R) (g : T → St → St) (s : St)
    (xs : list T) (t : T) :
  Map_p zeroU xs (λ v, Some (f v)) = Map zeroU xs f
  ∧ Filter_p zeroT growcap xs (λ v, Some (p v)) = Filter zeroT growcap xs p
  ∧ Reduce_p xs (λ a v, Some (reducer a v)) initial = Some (Reduce xs reducer initial)
  ∧ ForEach_p xs (λ v s', Some (g v s')) s = Some (ForEach xs g s)
  ∧ Contains_p (λ a b, Some (eqb a b)) xs t = Some (Contains eqb xs t)
  ∧ IndexOf_p (λ a b, Some (eqb a b)) xs t = Some (IndexOf eqb xs t).
Proof.
  split_and!.
  - unfold Map_p, Map. rewrite (Map_p_loop_returns _ f); [done|].
    by apply Forall_forall.
  - unfold Filter_p, Filter, Filter_run.
    rewrite (Filter_p_loop_returns _ _ _ p); [done|].
    by apply Forall_forall.
  - unfold Reduce_p, Reduce. revert initial.
    induction xs as [|x xs IH]; intros initial; simpl; [done | apply IH].
  - revert s. induction xs as [|x xs IH]; intros s; simpl; [done | apply IH].
  - induction xs as [|x xs IH]; simpl; [done|]. by destruct (eqb x t).
  - unfold IndexOf_p, IndexOf. generalize 0%Z.
    induction xs as [|x xs IH]; intros i; simpl; [done|].
    destruct (eqb x t); [done | apply IH].
Qed.




(** C8: the example scenario of the tests and doc comments, with Go's int
    arithmetic: Map squares [1,2,3,4,5] to [1,4,9,16,25]; Filter keeps the
    odd numbers [1,3] of [1,2,3,4,6]; Reduce sums [1,2,3,4,5] from 0 to 15;
    Contains finds 3 and does not find 6 in [1,2,3,4,5]. *)
Theorem example_scenario (growcap : nat → nat → nat) :
  Map 0%Z [1; 2; 3; 4; 5]%Z square = Some (mk_slice [1; 4; 9; 16; 25]%Z)
  ∧ Filter 0%Z growcap [1; 2; 3; 4; 6]%Z isOdd = Some (mk_slice [1; 3]%Z)
  ∧ Reduce [1; 2; 3; 4; 5]%Z sum 0%Z = 15%Z
  ∧ Contains Z.eqb [1; 2; 3; 4; 5]%Z 3%Z = true
  ∧ Contains Z.eqb [1; 2; 3; 4; 5]%Z 6%Z = false.
Proof. split_and!; reflexivity. Qed.

(** C9: [Contains] answers true exactly when [IndexOf] returns a nil
    error, and an index returned with a nil error is a position of the list
    whose element equals the target. *)
Theorem Contains_iff_IndexOf {T} (eqb : T → T → bool) (xs : list T) (t : T) :
  (Contains eqb xs t = true ↔ (IndexOf eqb xs t).2 = None)
  ∧ ∀ i : Z, IndexOf eqb xs t = (i, None) →
      (0 ≤ i)%Z ∧ ∃ v : T, xs !! Z.to_nat i = Some v ∧ eqb v t = true.
Proof.
  unfold IndexOf. rewrite Contains_Exists.
  destruct (IndexOf_loop_cases eqb xs t 0)
    as [(n & v & Hrun & Hn & Hv & _)|[Hrun Hall]]; rewrite Hrun; simpl.
  - split.
    + split; [done | intros _].
      by apply Exists_lookup with n v.
    + intros i [= <-]. split; [lia|].
      exists v. by rewrite Z.add_0_l, Nat2Z.id.
  - split.
    + split; [|done]. intros Hex.
      destruct (Exists_Forall_false _ _ Hex Hall).
    + intros i [=].
Qed.

Lemma Contains_iff_IndexOf_witness :
  (0 ≤ 1)%Z ∧ ∃ v : Z, [4; 7; 9]%Z !! Z.to_nat 1 = Some v ∧ (v =? 7)%Z = true.
Proof.
  apply (proj2 (Contains_iff_IndexOf Z.eqb [4; 7; 9]%Z 7%Z) 1%Z).
  reflexivity.
Defined.

(** C10: when some element of the list equals the target, [IndexOf]
    returns, with a nil error, the smallest index whose element equals the
    target: the first occurrence. *)
Theorem IndexOf_first_occurrence {T} (eqb : T → T → bool) (xs : list T) (t : T) :
  Exists (λ v, eqb v t = true) xs →
  ∃ (i : nat) (v : T),
    IndexOf eqb xs t = (Z.of_nat i, None)
    ∧ xs !! i = Some v ∧ eqb v t = true
    ∧ ∀ (j : nat) (w : T), xs !! j = Some w → eqb w t = true → i ≤ j.
Proof.
  intros Hex. unfold IndexOf.
  destruct (IndexOf_loop_cases eqb xs t 0) as [(n & v & Hrun & Hn & Hv & Hmin)|[_ Hall]].
  - exists n, v. by rewrite Hrun, Z.add_0_l.
  - destruct (Exists_Forall_false _ _ Hex Hall).
Qed.

Lemma IndexOf_first_occurrence_witness :
  ∃ (i : nat) (v : Z),
    IndexOf Z.eqb [5; 7; 5; 7]%Z 7%Z = (Z.of_nat i, None)
    ∧ [5; 7; 5; 7]%Z !! i = Some v ∧ (v =? 7)%Z = true
    ∧ ∀ (j : nat) (w : Z), [5; 7; 5; 7]%Z !! j = Some w → (w =? 7)%Z = true → i ≤ j.
Proof.
  apply (IndexOf_first_occurrence Z.eqb [5; 7; 5; 7]%Z 7%Z).
  right. left. reflexivity.
Defined.

(** ** The engine *)

Lemma live_insert_Some {Pc} (gs : list (option Pc)) (k : nat) (pc pc' : Pc) :
  gs !! k = Some (Some pc) → live (<[k := Some pc']> gs) = live gs.
Proof.
  revert k. induction gs as [|g gs IH]; intros [|k] Hk; simpl in *; try done.
  - by injection Hk as ->.
  - destruct g; by rewrite (IH k).
Qed.

Lemma live_insert_None {Pc} (gs : list (option Pc)) (k : nat) (pc : Pc) :
  gs !! k = Some (Some pc) → live gs = S (live (<[k := None]> gs)).
Proof.
  revert k. induction gs as [|g gs IH]; intros [|k] Hk; simpl in *; try done.
  - by injection Hk as ->.
  - destruct g; by rewrite (IH k).
Qed.

Lemma live_zero {Pc} (gs : list (option Pc)) (k : nat) (g : option Pc) :
  live gs = 0 → gs !! k = Some g → g = None.
Proof.
  revert k. induction gs as [|g' gs IH]; intros [|k] H0 Hk; simpl in *; try done.
  - injection Hk as ->. by destruct g.
  - destruct g'; [done | by apply IH with k].
Qed.

Lemma live_pos {Pc} (gs : list (option Pc)) :
  live gs ≠ 0 → ∃ (k : nat) (pc : Pc), gs !! k = Some (Some pc).
Proof.
  induction gs as [|g gs IH]; simpl; [done|].
  destruct g as [pc|]; intros Hl.
  - by exists 0, pc.
  - destruct (IH Hl) as (k & pc & Hk). by exists (S k), pc.
Qed.

Lemma live_imap_Some {A Pc} (h : nat → A → Pc) (xs : list A) :
  live (imap (λ i v, Some (h i v)) xs) = length xs.
Proof.
  revert h. induction xs as [|x xs IH]; intros h; simpl; [done|].
  f_equal. apply (IH (h ∘ S)).
Qed.

(** ** Concurrent Map *)

Section CMapRun.
Context {T U : Type}.
Variable zero : U.
Variable f : T → U.
Variable xs : list T.

Lemma cmap_init_inv : cmap_inv f xs (cmap_init zero xs).
Proof.
  unfold cmap_inv, cmap_init, make. simpl. split_and!.
  - apply length_replicate.
  - apply length_imap.
  - by rewrite live_imap_Some.
  - intros k v Hk. by rewrite list_lookup_imap, Hk.
Qed.

Lemma cmap_init_todo (k : nat) :
  k < length xs → cmap_todo (goroutines (cmap_init zero xs) !! k) = 2.
Proof.
  intros Hk. destruct (lookup_lt_is_Some_2 xs k Hk) as [v Hv].
  unfold cmap_init. simpl. by rewrite list_lookup_imap, Hv.
Qed.

(** One step of any goroutine keeps the invariant, never panics, and
    takes one step off that goroutine's remaining work. *)
Lemma cmap_fire_inv (k : nat) (c : config (list U) (cmap_pc T U)) :
  cmap_inv f xs c →
  ∃ c', fire (cmap_step f) k c = Some c'
        ∧ cmap_inv f xs c'
        ∧ ∀ j, cmap_todo (goroutines c' !! j)
               = cmap_todo (goroutines c !! j) - (if decide (j = k) then 1 else 0).
Proof.
  intros (Hsh & Hgs & Hwg & Hpt). unfold fire.
  destruct (goroutines c !! k) as [[[i v|i r]|]|] eqn:Hk.
  - (* the call of f *)
    simpl. eexists. split; [done|]. split.
    + unfold cmap_inv. simpl. split_and!; [done | by rewrite length_insert | |].
      * by rewrite (live_insert_Some _ _ _ _ Hk).
      * intros k' v' Hk'. specialize (Hpt k' v' Hk').
        destruct (decide (k' = k)) as [->|Hne].
        -- rewrite list_lookup_insert_eq by (by apply lookup_lt_Some in Hk).
           rewrite Hk in Hpt. destruct Hpt as [-> ->]. done.
        -- by rewrite list_lookup_insert_ne.
    + intros j. simpl. destruct (decide (j = k)) as [->|Hne].
      * rewrite list_lookup_insert_eq by (by apply lookup_lt_Some in Hk).
        by rewrite Hk.
      * rewrite list_lookup_insert_ne by done. lia.
  - (* the assignment to the slot *)
    assert (Hlt : k < length xs) by (rewrite <- Hgs; by apply lookup_lt_Some in Hk).
    destruct (lookup_lt_is_Some_2 xs k Hlt) as [v Hv].
    pose proof (Hpt k v Hv) as Hme. rewrite Hk in Hme. destruct Hme as [-> ->].
    simpl. rewrite store_Some by lia. simpl.
    rewrite Hwg, (live_insert_None _ _ _ Hk). simpl.
    eexists. split; [done|]. split.
    + unfold cmap_inv. simpl. split_and!; [by rewrite length_insert.. | done |].
      intros k' v' Hk'. specialize (Hpt k' v' Hk').
      destruct (decide (k' = k)) as [->|Hne].
      * rewrite !list_lookup_insert_eq by lia. congruence.
      * rewrite !list_lookup_insert_ne by done. done.
    + intros j. simpl. destruct (decide (j = k)) as [->|Hne].
      * rewrite list_lookup_insert_eq by lia. by rewrite Hk.
      * rewrite list_lookup_insert_ne by done. lia.
  - (* a goroutine that has ended *)
    exists c. split_and!; [done..|].
    intros j. destruct (decide (j = k)) as [->|]; [rewrite Hk; simpl|]; lia.
  - (* no such goroutine *)
    exists c. split_and!; [done..|].
    intros j. destruct (decide (j = k)) as [->|]; [rewrite Hk; simpl|]; lia.
Qed.

Lemma cmap_run_inv (sched : list nat) :
  ∀ c : config (list U) (cmap_pc T U),
    cmap_inv f xs c →
    ∃ c', run (cmap_step f) sched c = Some c'
          ∧ cmap_inv f xs c'
          ∧ ∀ j, cmap_todo (goroutines c' !! j)
                 = cmap_todo (goroutines c !! j) - count_occ Nat.eq_dec sched j.
Proof.
  induction sched as [|k rest IH]; intros c Hc; simpl.
  - exists c. split_and!; [done..|]. intros; lia.
  - destruct (cmap_fire_inv k c Hc) as (c1 & -> & Hc1 & Htodo1). simpl.
    destruct (IH c1 Hc1) as (c2 & Hrun & Hc2 & Htodo2).
    exists c2. split_and!; [done..|].
    intros j. rewrite Htodo2, Htodo1.
    destruct (Nat.eq_dec k j), (decide (j = k)); subst; try done; lia.
Qed.

(** When the barrier opens, every slot has been written. *)
Lemma cmap_inv_released (c : config (list U) (cmap_pc T U)) :
  cmap_inv f xs c → wg c = 0 → shared c = f <$> xs.
Proof.
  intros (Hsh & Hgs & Hwg & Hpt) H0. rewrite Hwg in H0.
  apply list_eq. intros i. rewrite list_lookup_fmap.
  destruct (xs !! i) as [v|] eqn:Hv; simpl.
  - specialize (Hpt i v Hv).
    destruct (goroutines c !! i) as [g|] eqn:Hg; [|done].
    by rewrite (live_zero _ _ _ H0 Hg) in Hpt.
  - apply lookup_ge_None. rewrite Hsh. by apply lookup_ge_None.
Qed.
End CMapRun.

(** C1: under every schedule, a call of [CMap] that returns gives a result
    equal, position for position, to that of the sequential [Map]: it has
    the length of [xs] and holds [f] of the i-th element of [xs] at every
    index [i].  This covers every length (for the empty list [CMap] hands
    back nil, [Map] an empty slice; both have no elements).  No schedule
    makes the call panic, and the call is still waiting at the barrier only
    when the schedule gave some goroutine fewer than its two steps. *)
Theorem CMap_refines_Map {T U} (zero : U) (xs : list T) (f : T → U)
    (sched : list nat) :
  match CMap zero sched xs f with
  | Returned r =>
      Map zero xs f = Some (mk_slice (elems r))
      ∧ len_of r = length xs
      ∧ ∀ i : nat, elems r !! i = f <$> xs !! i
  | Blocked => ∃ k : nat, k < length xs ∧ count_occ Nat.eq_dec sched k < 2
  | Panicked => False
  end.
Proof.
  rewrite CMap_eq. destruct (Nat.eqb_spec (length xs) 0) as [Hnil|Hne].
  - destruct xs; [|done]. simpl. split_and!; [done..|]. by intros [|i].
  - unfold wait.
    destruct (cmap_run_inv f xs sched _ (cmap_init_inv zero f xs))
      as (c & -> & Hc & Htodo).
    destruct (Nat.eqb_spec (wg c) 0) as [H0|Hpos].
    + rewrite (cmap_inv_released f xs c Hc H0). unfold len_of. simpl.
      split_and!; [apply Map_fmap | apply length_fmap |].
      intros i. apply list_lookup_fmap.
    + destruct Hc as (_ & Hgs & Hwg & _). rewrite Hwg in Hpos.
      destruct (live_pos _ Hpos) as (k & pc & Hk).
      assert (Hlt : k < length xs) by (rewrite <- Hgs; by apply lookup_lt_Some in Hk).
      exists k. split; [done|].
      specialize (Htodo k). rewrite Hk, (cmap_init_todo zero xs k Hlt) in Htodo.
      destruct pc; simpl in Htodo; lia.
Qed.

(** In no state a [CMap] run reaches are two goroutines about to touch the
    same location: each one writes its own slot. *)
Lemma race_among_own_slot (gs : list (list access)) :
  ∀ off : nat,
    (∀ (k : nat) (g : list access) (a : access),
        gs !! k = Some g → a ∈ g → loc a = Elem 0 (off + k)) →
    race_among gs = false.
Proof.
  induction gs as [|g rest IH]; intros off Hown; simpl; [done|].
  apply orb_false_intro.
  - apply not_true_iff_false. intros Hrace.
    apply existsb_exists in Hrace as (h & Hh & Hrace).
    apply existsb_exists in Hrace as (a & Ha & Hrace).
    apply existsb_exists in Hrace as (b & Hb & Hrace).
    apply andb_true_iff in Hrace as [Hloc _].
    apply bool_decide_eq_true in Hloc.
    apply list_elem_of_In, list_elem_of_lookup_1 in Hh as [j Hj].
    apply list_elem_of_In in Ha, Hb.
    rewrite (Hown 0 g a eq_refl Ha), (Hown (S j) h b Hj Hb) in Hloc.
    injection Hloc. lia.
  - apply (IH (S off)). intros k h a Hk Ha.
    rewrite (Hown (S k) h a Hk Ha). f_equal. lia.
Qed.

(** No state that a [CMap] run reaches, under any schedule, holds a data
    race: the accesses two goroutines are about to make never conflict. *)
Lemma CMap_race_free {T U} (zero : U) (xs : list T) (f : T → U)
    (sched : list nat) (c : config (list U) (cmap_pc T U)) :
  run (cmap_step f) sched (cmap_init zero xs) = Some c →
  has_race cmap_pending c = false.
Proof.
  intros Hrun.
  destruct (cmap_run_inv f xs sched _ (cmap_init_inv zero f xs))
    as (c' & Hrun' & (_ & Hgs & _ & Hpt) & _).
  rewrite Hrun in Hrun'. injection Hrun' as <-.
  unfold has_race. apply (race_among_own_slot _ 0).
  intros k g a Hk Ha. rewrite list_lookup_fmap in Hk.
  destruct (goroutines c !! k) as [pc|] eqn:Hpc; [|done].
  injection Hk as <-.
  assert (Hlt : k < length xs) by (rewrite <- Hgs; by apply lookup_lt_Some in Hpc).
  destruct (lookup_lt_is_Some_2 xs k Hlt) as [v Hv].
  specialize (Hpt k v Hv). rewrite Hpc in Hpt.
  destruct pc as [[i w|i r]|]; simpl in Ha.
  - by apply elem_of_nil in Ha.
  - destruct Hpt as [-> _]. by apply list_elem_of_singleton in Ha as ->.
  - by apply elem_of_nil in Ha.
Qed.

Lemma CMap_race_free_witness :
  has_race (cmap_pending (T := Z) (U := Z))
    (Config [1; 0; 0]%Z 2 [None; Some (MStore 1 4%Z); Some (MCall 2 3%Z)]) = false.
Proof.
  apply (CMap_race_free 0%Z [1; 2; 3]%Z square [0; 1; 0]).
  reflexivity.
Defined.

(** The CMap tests of going_test.go (empty, one element, five elements),
    with the goroutines taking turns. *)
Lemma CMap_tests :
  CMap 0%Z [] [] double = Returned nil_slice
  ∧ CMap 0%Z [0; 0] [42]%Z double = Returned (mk_slice [84]%Z)
  ∧ CMap 0%Z [0; 1; 2; 3; 4; 0; 1; 2; 3; 4] [1; 2; 3; 4; 5]%Z double
    = Returned (mk_slice [2; 4; 6; 8; 10]%Z).
Proof. split_and!; vm_compute; reflexivity. Qed.

(** ** The empty input *)


(** ** Go's int addition *)

Lemma int_add_comm (a b : Z) : int_add a b = int_add b a.
Proof. unfold int_add. f_equal. apply Z.add_comm. Qed.

Lemma int_add_assoc (a b c : Z) :
  int_add (int_add a b) c = int_add a (int_add b c).
Proof.
  unfold int_add, wrap64.
  generalize (2 ^ 63)%Z (2 ^ 64)%Z. intros h m. f_equal.
  replace ((a + b + h) `mod` m - h + c + h)%Z
    with ((a + b + h) `mod` m + c)%Z by lia.
  replace (a + ((b + c + h) `mod` m - h) + h)%Z
    with (a + (b + c + h) `mod` m)%Z by lia.
  rewrite Zplus_mod_idemp_l, Zplus_mod_idemp_r. f_equal. lia.
Qed.

(** ** The unsynchronised variants

    [CFilter] and [CReduce] read the captured variable, work on the value
    read, and assign the variable, with nothing between the goroutines to
    order these accesses.  The runs below are ordinary interleavings of two
    goroutines. *)

(** A single goroutine has nobody to race with: on a one-element list
    [CReduce] can only return what [Reduce] returns. *)
Lemma creduce_single_run {T R} (reducer : R → T → R) (initial : R) (x : T)
    (sched : list nat) :
  ∀ c, creduce_single_inv reducer initial x c →
       ∃ c', run (creduce_step reducer) sched c = Some c'
             ∧ creduce_single_inv reducer initial x c'.
Proof.
  induction sched as [|k rest IH]; intros c Hc; simpl.
  - by exists c.
  - destruct k as [|k].
    + destruct Hc as [-> | [-> | [-> | ->]]]; simpl; apply IH; unfold creduce_single_inv; auto.
    + assert (Hidle : fire (creduce_step reducer) (S k) c = Some c)
        by (by destruct Hc as [-> | [-> | [-> | ->]]]).
      rewrite Hidle. simpl. by apply IH.
Qed.

(** On a one-element list a [CReduce] call, once it returns, returns what
    the sequential [Reduce] returns, whatever the schedule. *)
Lemma CReduce_single {T R} (reducer : R → T → R) (initial : R) (x : T)
    (sched : list nat) :
  CReduce sched [x] reducer initial = Blocked
  ∨ CReduce sched [x] reducer initial = Returned (Reduce [x] reducer initial).
Proof.
  rewrite CReduce_eq. unfold wait. simpl.
  destruct (creduce_single_run reducer initial x sched (creduce_init [x] initial))
    as (c & -> & Hc); [by left|].
  destruct Hc as [-> | [-> | [-> | ->]]]; simpl; auto.
Qed.

(** C2 does not hold of the code.  On [1, 3] with the odd-number predicate
    the sequential [Filter] returns [1, 3]; when both goroutines of
    [CFilter] read [result] before either assigns it, both append at
    position 0 and the call returns [3]: the element 1 is dropped, and the
    result is not a rearrangement of [Filter]'s.  (Run one goroutine after
    the other and [CFilter] returns [1, 3] or [3, 1].) *)
Theorem CFilter_drops_element (growcap : nat → nat → nat) :
  Filter 0%Z growcap [1; 3]%Z isOdd = Some (mk_slice [1; 3]%Z)
  ∧ CFilter 0%Z growcap [0; 1; 0; 1; 0; 0; 1; 1] [1; 3]%Z isOdd
    = Returned (mk_slice [3]%Z)
  ∧ ¬ ([3]%Z ≡ₚ [1; 3]%Z)
  ∧ CFilter 0%Z growcap [0; 0; 0; 0; 1; 1; 1; 1] [1; 3]%Z isOdd
    = Returned (mk_slice [1; 3]%Z)
  ∧ CFilter 0%Z growcap [1; 1; 1; 1; 0; 0; 0; 0] [1; 3]%Z isOdd
    = Returned (mk_slice [3; 1]%Z).
Proof.
  split_and!; try (vm_compute; reflexivity).
  intros Hperm. by apply Permutation_length in Hperm.
Qed.

(** C3 does not hold of the code.  Go's int addition is commutative and
    associative; the sequential [Reduce] sums [1, 2] from 0 to 3; when both
    goroutines of [CReduce] read [acc] before either assigns it, the second
    assignment overwrites the first and the call returns 2.  (Run one
    goroutine after the other and [CReduce] returns 3.) *)
Theorem CReduce_loses_update :
  (∀ a b : Z, sum a b = sum b a)
  ∧ (∀ a b c : Z, sum (sum a b) c = sum a (sum b c))
  ∧ Reduce [1; 2]%Z sum 0%Z = 3%Z
  ∧ CReduce [0; 1; 0; 0; 1; 1] [1; 2]%Z sum 0%Z = Returned 2%Z
  ∧ CReduce [0; 0; 0; 1; 1; 1] [1; 2]%Z sum 0%Z = Returned 3%Z.
Proof.
  split_and!.
  - apply int_add_comm.
  - apply int_add_assoc.
  - vm_compute; reflexivity.
  - vm_compute; reflexivity.
  - vm_compute; reflexivity.
Qed.

(** C4 does not hold of the code: the package has no lock and neither
    variant avoids the sharing.  A [CFilter] run on [1, 3] reaches a state
    in which both goroutines are inside [append] and about to write element
    0 of the same backing array, and a state in which one is about to
    assign [result] while the other is about to read it; a [CReduce] run on
    [1, 2] reaches a state in which one goroutine is about to assign [acc]
    while the other is about to read it. *)
Theorem shared_state_races (growcap : nat → nat → nat) :
  (∃ c, run (cfilter_step 0%Z growcap isOdd) [0; 0; 1; 1] (cfilter_init 0%Z [1; 3]%Z)
        = Some c
        ∧ goroutines c = [Some (FAppend (Header 0 0 2) 1%Z);
                          Some (FAppend (Header 0 0 2) 3%Z)]
        ∧ has_race cfilter_pending c = true)
  ∧ (∃ c, run (cfilter_step 0%Z growcap isOdd) [0; 0; 0; 1] (cfilter_init 0%Z [1; 3]%Z)
          = Some c
          ∧ goroutines c = [Some (FStore (Header 0 1 2)); Some (FLoad 3%Z)]
          ∧ has_race cfilter_pending c = true)
  ∧ (∃ c, run (creduce_step sum) [0; 0] (creduce_init [1; 2]%Z 0%Z) = Some c
          ∧ goroutines c = [Some (RStore 1%Z); Some (RLoad 2%Z)]
          ∧ has_race creduce_pending c = true).
Proof.
  split_and!; eexists; (split; [vm_compute; reflexivity|]); split; reflexivity.
Qed.

(** ** Picking elements at distinct positions *)

Lemma omap_submseteq {A B} (g : A → option B) (l k : list A) :
  l ⊆+ k → omap g l ⊆+ omap g k.
Proof.
  induction 1 as [|x l1 l2 _ IH|x y l|x l1 l2 _ IH|l1 l2 l3 _ IH1 _ IH2]; simpl.
  - done.
  - destruct (g x); [by constructor | done].
  - destruct (g x), (g y); try done. apply submseteq_swap.
  - destruct (g x); [by constructor | done].
  - by etrans.
Qed.

Lemma omap_seq_filter {A} (f : A → bool) (xs : list A) :
  omap (λ k, x ← xs !! k; if f x then Some x else None) (seq 0 (length xs))
  = List.filter f xs.
Proof.
  induction xs as [|x xs IH]; [done|].
  cbn [length seq]. rewrite <- fmap_S_seq. cbn [omap list_omap].
  assert (Htl : omap (λ k, y ← (x :: xs) !! k; if f y then Some y else None)
                  (S <$> seq 0 (length xs)) = List.filter f xs).
  { rewrite <- IH. clear IH. induction (seq 0 (length xs)) as [|j js IHjs]; [done|].
    cbn [fmap list_fmap omap list_omap]. rewrite IHjs. done. }
  cbn [lookup list_lookup mbind option_bind List.filter].
  rewrite Htl. by destruct (f x).
Qed.

Lemma pick_filter_submseteq {A} (f : A → bool) (xs : list A) (ks : list nat) :
  NoDup ks →
  (∀ k, k ∈ ks → ∃ x, xs !! k = Some x ∧ f x = true) →
  pick xs ks ⊆+ List.filter f xs.
Proof.
  intros Hnd Hks. rewrite <- omap_seq_filter.
  assert (Hpick : pick xs ks
                  = omap (λ k, x ← xs !! k; if f x then Some x else None) ks).
  { unfold pick. clear Hnd. induction ks as [|k ks IH]; [done|].
    cbn [omap list_omap].
    destruct (Hks k) as (x & Hx & Hfx); [by left|].
    rewrite Hx. simpl. rewrite Hfx, IH; [done|].
    intros j Hj. apply Hks. by right. }
  rewrite Hpick. apply omap_submseteq, NoDup_submseteq; [done|].
  intros k Hk. destruct (Hks k Hk) as (x & Hx & _).
  apply elem_of_seq. split; [lia|]. apply lookup_lt_Some in Hx. lia.
Qed.

Lemma filter_all {A} (xs : list A) : List.filter (λ _, true) xs = xs.
Proof. induction xs as [|x xs IH]; simpl; [done | by rewrite IH]. Qed.

Lemma pick_snoc {A} (xs : list A) (ks : list nat) (k : nat) (v : A) :
  xs !! k = Some v → pick xs (ks ++ [k]) = pick xs ks ++ [v].
Proof. intros Hk. unfold pick. rewrite omap_app. simpl. by rewrite Hk. Qed.

Lemma Reduce_app {T R} (xs ys : list T) (reducer : R → T → R) (initial : R) :
  Reduce (xs ++ ys) reducer initial = Reduce ys reducer (Reduce xs reducer initial).
Proof.
  unfold Reduce. revert initial.
  induction xs as [|x xs IH]; intros initial; simpl; [done | apply IH].
Qed.

(** A state that only moves forward keeps what was known of the others. *)
Lemma lookup_insert_mono {A} (P : option A → Prop) (l : list A) (k : nat) (x : A) :
  (P (l !! k) → P (Some x)) → ∀ j, P (l !! j) → P (<[k := x]> l !! j).
Proof.
  intros Hk j Hj. destruct (decide (j = k)) as [->|Hne].
  - destruct (decide (k < length l)).
    + rewrite list_lookup_insert_eq by done. auto.
    + by rewrite list_insert_ge by lia.
  - by rewrite list_lookup_insert_ne.
Qed.

Lemma live_fmap_Some {A Pc} (h : A → Pc) (xs : list A) :
  live ((λ v, Some (h v)) <$> xs) = length xs.
Proof. induction xs as [|x xs IH]; simpl; [done | f_equal; exact IH]. Qed.

(** ** Concurrent Reduce *)

Section CReduceRun.
Context {T R : Type}.
Variable reducer : R → T → R.
Variable initial : R.
Variable xs : list T.

Lemma creduce_chain_mono (gs gs' : list (option (creduce_pc T R)))
    (ks : list nat) (val : R) :
  (∀ j, creduce_passed (gs !! j) → creduce_passed (gs' !! j)) →
  creduce_chain reducer initial xs gs ks val →
  creduce_chain reducer initial xs gs' ks val.
Proof.
  intros Hmono (Hnd & Hks & Hval). split_and!; [done | | done].
  intros k Hk. destruct (Hks k Hk). auto.
Qed.

Lemma creduce_pc_ok_mono (gs gs' : list (option (creduce_pc T R)))
    (k : nat) (pc : creduce_pc T R) :
  (∀ j, creduce_passed (gs !! j) → creduce_passed (gs' !! j)) →
  creduce_pc_ok reducer initial xs gs k pc →
  creduce_pc_ok reducer initial xs gs' k pc.
Proof.
  intros Hmono. destruct pc as [v|a v|r]; simpl.
  - done.
  - intros (Hv & ks & Hch). eauto using creduce_chain_mono.
  - intros (ks & Hne & Hch). eauto using creduce_chain_mono.
Qed.

Lemma creduce_init_inv : creduce_inv reducer initial xs (creduce_init xs initial).
Proof.
  unfold creduce_inv, creduce_init. simpl. split_and!.
  - apply length_fmap.
  - symmetry. apply (live_fmap_Some (@RLoad T R)).
  - exists []. split.
    + split_and!; [constructor | | done]. intros k Hk. by apply elem_of_nil in Hk.
    + intros _ k. rewrite list_lookup_fmap. by destruct (xs !! k).
  - intros k pc. rewrite list_lookup_fmap.
    destruct (xs !! k) as [v|] eqn:Hv; [|done]. intros [= <-]. exact Hv.
Qed.


(** One step of any goroutine keeps the invariant, never panics, and
    takes one step off that goroutine's remaining work. *)
Lemma creduce_fire_inv (k : nat) (c : config R (creduce_pc T R)) :
  creduce_inv reducer initial xs c →
  ∃ c', fire (creduce_step reducer) k c = Some c'
        ∧ creduce_inv reducer initial xs c'
        ∧ ∀ j, creduce_todo (goroutines c' !! j)
               = creduce_todo (goroutines c !! j) - (if decide (j = k) then 1 else 0).
Proof.
  intros (Hgs & Hwg & (ks0 & Hch0 & Hnil0) & Hpt). unfold fire.
  destruct (goroutines c !! k) as [[pc|]|] eqn:Hk.
  - assert (Hlt : k < length (goroutines c)) by (by apply lookup_lt_Some in Hk).
    pose proof (Hpt k pc Hk) as Hme.
    destruct pc as [v|a v|r]; simpl in Hme |- *.
    + (* the read of acc *)
      set (gs' := <[k := Some (RCall (shared c) v)]> (goroutines c)).
      assert (Hmono : ∀ j, creduce_passed (goroutines c !! j)
                           → creduce_passed (gs' !! j)).
      { apply lookup_insert_mono. by rewrite Hk. }
      eexists. split; [done|]. split.
      * unfold creduce_inv. simpl. fold gs'. split_and!.
        -- unfold gs'. by rewrite length_insert.
        -- unfold gs'. by rewrite (live_insert_Some _ _ _ _ Hk).
        -- exists ks0. split; [by apply creduce_chain_mono with (goroutines c)|].
           intros Hnil j. unfold gs'. destruct (decide (j = k)) as [->|Hne].
           ++ by rewrite list_lookup_insert_eq.
           ++ rewrite list_lookup_insert_ne by done. by apply Hnil0.
        -- intros j pc. unfold gs' at 1. destruct (decide (j = k)) as [->|Hne].
           ++ rewrite list_lookup_insert_eq by done. intros [= <-]. simpl.
              split; [done|]. exists ks0.
              by apply creduce_chain_mono with (goroutines c).
           ++ rewrite list_lookup_insert_ne by done. intros Hj.
              apply creduce_pc_ok_mono with (goroutines c); auto.
      * intros j. simpl. unfold gs'. destruct (decide (j = k)) as [->|Hne].
        -- by rewrite list_lookup_insert_eq, Hk.
        -- rewrite list_lookup_insert_ne by done. lia.
    + (* the call of the reducer *)
      destruct Hme as (Hv & ks & Hnd & Hks & Hval).
      set (gs' := <[k := Some (RStore (reducer a v))]> (goroutines c)).
      assert (Hmono : ∀ j, creduce_passed (goroutines c !! j)
                           → creduce_passed (gs' !! j)).
      { by apply lookup_insert_mono. }
      assert (Hfresh : k ∉ ks).
      { intros Hin. destruct (Hks k Hin) as [Hp _]. by rewrite Hk in Hp. }
      eexists. split; [done|]. split.
      * unfold creduce_inv. simpl. fold gs'. split_and!.
        -- unfold gs'. by rewrite length_insert.
        -- unfold gs'. by rewrite (live_insert_Some _ _ _ _ Hk).
        -- exists ks0. split; [by apply creduce_chain_mono with (goroutines c)|].
           intros Hnil j. unfold gs'. destruct (decide (j = k)) as [->|Hne].
           ++ by rewrite list_lookup_insert_eq.
           ++ rewrite list_lookup_insert_ne by done. by apply Hnil0.
        -- intros j pc. unfold gs' at 1. destruct (decide (j = k)) as [->|Hne].
           ++ rewrite list_lookup_insert_eq by done. intros [= <-]. simpl.
              exists (ks ++ [k]). split; [by destruct ks|]. split_and!.
              ** apply list.NoDup_app.
                 split_and!; [done | | apply NoDup_singleton].
                 intros j Hj Hjk. apply list_elem_of_singleton in Hjk as ->. done.
              ** intros j Hj. apply elem_of_app in Hj as [Hj|Hj].
                 --- destruct (Hks j Hj). auto.
                 --- apply list_elem_of_singleton in Hj as ->. split; [|by eexists].
                     unfold gs'. by rewrite list_lookup_insert_eq.
              ** by rewrite (pick_snoc _ _ _ v), Reduce_app, <- Hval.
           ++ rewrite list_lookup_insert_ne by done. intros Hj.
              apply creduce_pc_ok_mono with (goroutines c); auto.
      * intros j. simpl. unfold gs'. destruct (decide (j = k)) as [->|Hne].
        -- by rewrite list_lookup_insert_eq, Hk.
        -- rewrite list_lookup_insert_ne by done. lia.
    + (* the assignment to acc *)
      destruct Hme as (ks & Hne & Hch).
      set (gs' := <[k := None]> (goroutines c)).
      assert (Hmono : ∀ j, creduce_passed (goroutines c !! j)
                           → creduce_passed (gs' !! j)).
      { by apply lookup_insert_mono. }
      rewrite Hwg, (live_insert_None _ _ _ Hk). simpl. fold gs'.
      eexists. split; [done|]. split.
      * unfold creduce_inv. simpl. split_and!.
        -- unfold gs'. by rewrite length_insert.
        -- done.
        -- exists ks. split; [by apply creduce_chain_mono with (goroutines c)|done].
        -- intros j pc. unfold gs' at 1. destruct (decide (j = k)) as [->|Hjk].
           ++ by rewrite list_lookup_insert_eq.
           ++ rewrite list_lookup_insert_ne by done. intros Hj.
              apply creduce_pc_ok_mono with (goroutines c); auto.
      * intros j. simpl. destruct (decide (j = k)) as [->|Hjk].
        -- unfold gs'. by rewrite list_lookup_insert_eq, Hk.
        -- unfold gs'. rewrite list_lookup_insert_ne by done. lia.
  - exists c. split_and!; [done | |].
    { exact (conj Hgs (conj Hwg (conj (ex_intro _ ks0 (conj Hch0 Hnil0)) Hpt))). }
    intros j. destruct (decide (j = k)) as [->|]; [rewrite Hk; simpl|]; lia.
  - exists c. split_and!; [done | |].
    { exact (conj Hgs (conj Hwg (conj (ex_intro _ ks0 (conj Hch0 Hnil0)) Hpt))). }
    intros j. destruct (decide (j = k)) as [->|]; [rewrite Hk; simpl|]; lia.
Qed.

Lemma creduce_run_inv (sched : list nat) :
  ∀ c : config R (creduce_pc T R),
    creduce_inv reducer initial xs c →
    ∃ c', run (creduce_step reducer) sched c = Some c'
          ∧ creduce_inv reducer initial xs c'
          ∧ ∀ j, creduce_todo (goroutines c' !! j)
                 = creduce_todo (goroutines c !! j) - count_occ Nat.eq_dec sched j.
Proof.
  induction sched as [|k rest IH]; intros c Hc; simpl.
  - exists c. split_and!; [done..|]. intros; lia.
  - destruct (creduce_fire_inv k c Hc) as (c1 & -> & Hc1 & Htodo1). simpl.
    destruct (IH c1 Hc1) as (c2 & Hrun & Hc2 & Htodo2).
    exists c2. split_and!; [done..|].
    intros j. rewrite Htodo2, Htodo1.
    destruct (Nat.eq_dec k j), (decide (j = k)); subst; try done; lia.
Qed.
End CReduceRun.

(** Along the interleavings of the steps of [creduce_step], a call that
    returns gives the fold of the elements at some distinct positions of the
    input. *)
Lemma creduce_returned_fold {T R} (sched : list nat) (xs : list T)
    (reducer : R → T → R) (initial v : R) :
  CReduce sched xs reducer initial = Returned v →
  ∃ ys : list T,
    ys ⊆+ xs ∧ (xs ≠ [] → ys ≠ []) ∧ v = Reduce ys reducer initial.
Proof.
  rewrite CReduce_eq. destruct (Nat.eqb_spec (length xs) 0) as [Hnil|Hne].
  - intros [= <-]. exists []. split_and!; [apply submseteq_nil_l | | done].
    by destruct xs.
  - unfold wait.
    destruct (creduce_run_inv reducer initial xs sched _
                (creduce_init_inv reducer initial xs)) as (c & -> & Hc & _).
    destruct Hc as (Hgs & Hwg & (ks & (Hnd & Hks & Hval) & Hnil) & _).
    destruct (Nat.eqb_spec (wg c) 0) as [H0|]; [|done].
    intros [= <-]. exists (pick xs ks). split_and!; [| |done].
    + pose proof (pick_filter_submseteq (λ _, true) xs ks Hnd) as Hsub.
      rewrite filter_all in Hsub. apply Hsub.
      intros k Hk. destruct (Hks k Hk) as [_ [x Hx]]. by exists x.
    + intros _. destruct ks as [|k ks'].
      * exfalso. rewrite Hwg in H0.
        destruct (lookup_lt_is_Some_2 (goroutines c) 0) as [g Hg]; [lia|].
        apply (Hnil eq_refl 0). by rewrite Hg, (live_zero _ _ _ H0 Hg).
      * destruct (Hks k) as [_ [x Hx]]; [by left|].
        unfold pick. simpl. by rewrite Hx.
Qed.

(** With an accumulator of type int: whatever the schedule, a [CReduce]
    call that returns gives the sequential [Reduce] of some of the elements
    of the input, each taken at most once, in some order; for a non-empty
    input at least one element is taken.  Updates can be lost, no element
    is folded in twice.  (An int is one machine word: a racing read of
    [acc] observes a value some goroutine assigned, or the initial one, as
    [creduce_step] has it.  Of an accumulator of several words the
    unsynchronised assignments give no such guarantee.) *)
Theorem CReduce_int_folds_distinct_elements {T} (sched : list nat) (xs : list T)
    (reducer : Z → T → Z) (initial v : Z) :
  CReduce sched xs reducer initial = Returned v →
  ∃ ys : list T,
    ys ⊆+ xs ∧ (xs ≠ [] → ys ≠ []) ∧ v = Reduce ys reducer initial.
Proof. apply creduce_returned_fold. Qed.

Lemma CReduce_int_folds_distinct_elements_witness :
  ∃ ys : list Z,
    ys ⊆+ [1; 2; 4]%Z ∧ ([1; 2; 4]%Z ≠ [] → ys ≠ [])
    ∧ 5%Z = Reduce ys sum 0%Z.
Proof.
  apply (CReduce_int_folds_distinct_elements
           [0; 0; 0; 1; 2; 1; 1; 2; 2] [1; 2; 4]%Z sum 0%Z 5%Z).
  vm_compute. reflexivity.
Defined.


(** ** Concurrent Filter *)

Lemma NoDup_bounded_length (l : list nat) (n : nat) :
  NoDup l → (∀ x, x ∈ l → x < n) → length l ≤ n.
Proof.
  intros Hnd Hlt.
  transitivity (length (seq 0 n)); [|by rewrite length_seq].
  apply submseteq_length, NoDup_submseteq; [done|].
  intros x Hx. apply elem_of_seq. specialize (Hlt x Hx). lia.
Qed.

(** Goroutine [k], which is the last writer of no element, writes element
    [j] of the written part or the first element after it. *)
Lemma writer_update (ws : list nat) (j k : nat) :
  NoDup ws → k ∉ ws → j ≤ length ws →
  ∃ ws' : list nat,
    NoDup ws' ∧ length ws ≤ length ws' ∧ j < length ws'
    ∧ ∀ (i k' : nat), ws' !! i = Some k' →
        (i = j ∧ k' = k) ∨ (i ≠ j ∧ ws !! i = Some k').
Proof.
  intros Hnd Hfresh Hj. destruct (decide (j < length ws)) as [Hlt|Hge].
  - exists (<[j := k]> ws). rewrite length_insert. split_and!; [|lia..|].
    + apply NoDup_alt. intros i1 i2 x H1 H2.
      apply list_lookup_insert_Some in H1 as [(<- & <- & _)|[Hn1 H1]];
        apply list_lookup_insert_Some in H2 as [(<- & Hx & _)|[Hn2 H2]]; subst.
      * done.
      * destruct Hfresh. by apply list_elem_of_lookup_2 with i2.
      * destruct Hfresh. by apply list_elem_of_lookup_2 with i1.
      * by apply (proj1 (NoDup_alt ws) Hnd i1 i2 x).
    + intros i k' Hi.
      apply list_lookup_insert_Some in Hi as [(<- & <- & _)|[Hn Hi]]; auto.
  - assert (j = length ws) as -> by lia.
    exists (ws ++ [k]). rewrite length_app. simpl. split_and!; [|lia..|].
    + apply list.NoDup_app. split_and!; [done | | apply NoDup_singleton].
      intros x Hx Hxk. apply list_elem_of_singleton in Hxk as ->. done.
    + intros i k' Hi.
      apply lookup_snoc_Some in Hi as [[Hlt Hi]|[-> <-]]; [right | by left].
      split; [lia | done].
Qed.

(** The written part of the array, read back through its writers. *)
Lemma take_written {T} (xs : list T) (m : nat) :
  ∀ (a : list T) (ws : list nat),
    m ≤ length ws →
    (∀ (i k : nat), ws !! i = Some k → ∃ x, xs !! k = Some x ∧ a !! i = Some x) →
    take m a = pick xs (take m ws).
Proof.
  induction m as [|m IH]; intros a ws Hm Hw; [done|].
  destruct ws as [|k ws]; simpl in Hm; [lia|].
  destruct (Hw 0 k eq_refl) as (x & Hx & Ha).
  destruct a as [|y a]; [done|]. simpl in Ha. injection Ha as ->.
  unfold pick in *. simpl. rewrite Hx. f_equal.
  apply IH; [lia|]. intros i k' Hi. apply (Hw (S i) k' Hi).
Qed.

Section CFilterRun.
Context {T : Type}.
Variable zero : T.
Variable growcap : nat → nat → nat.
Variable f : T → bool.
Variable xs : list T.

Lemma hdr_ok_mono (ws ws' : list nat) (h : header) :
  length ws ≤ length ws' → hdr_ok (length xs) ws h → hdr_ok (length xs) ws' h.
Proof. intros Hle (Hp & Hc & Hl). split_and!; [done..|lia]. Qed.

Lemma cfilter_pc_ok_mono (ws ws' : list nat) (k : nat) (pc : cfilter_pc T) :
  length ws ≤ length ws' → cfilter_pc_ok f xs ws k pc → cfilter_pc_ok f xs ws' k pc.
Proof.
  intros Hle. destruct pc as [v|v|h v|h]; simpl; try done.
  - intros (Hv & Hf & Hh). eauto using hdr_ok_mono.
  - eauto using hdr_ok_mono.
Qed.

Lemma cfilter_written_mono (gs gs' : list (option (cfilter_pc T)))
    (a : list T) (ws : list nat) :
  (∀ j, cfilter_passed (gs !! j) → cfilter_passed (gs' !! j)) →
  cfilter_written f xs gs a ws → cfilter_written f xs gs' a ws.
Proof.
  intros Hmono [Hnd Hw]. split; [done|].
  intros i k Hi. destruct (Hw i k Hi) as [Hp Hx]. auto.
Qed.

Lemma cfilter_init_inv : cfilter_inv f xs (cfilter_init zero xs).
Proof.
  exists (make zero (length xs)), []. unfold cfilter_init, make. simpl.
  split_and!.
  - done.
  - apply length_replicate.
  - apply length_fmap.
  - symmetry. apply (live_fmap_Some (@FCall T)).
  - split; [constructor|]. intros i k Hi. done.
  - split_and!; simpl; [done..|lia].
  - intros k pc. rewrite list_lookup_fmap.
    destruct (xs !! k) as [v|] eqn:Hv; [|done]. intros [= <-]. exact Hv.
Qed.

Lemma cfilter_init_todo (k : nat) :
  k < length xs → cfilter_todo (goroutines (cfilter_init zero xs) !! k) = 4.
Proof.
  intros Hk. destruct (lookup_lt_is_Some_2 xs k Hk) as [v Hv].
  unfold cfilter_init. simpl. by rewrite list_lookup_fmap, Hv.
Qed.
(** A goroutine inside [append] holds a header of the array of [make] with
    room for one more element. *)
Lemma cfilter_inv_room (c : config (fmem T) (cfilter_pc T)) (k : nat)
    (h : header) (v : T) :
  cfilter_inv f xs c →
  goroutines c !! k = Some (Some (FAppend h v)) →
  ptr h = 0 ∧ cap h = length xs ∧ len h < cap h.
Proof.
  intros (a & ws & Harr & Hla & Hgs & Hwg & [Hnd Hw] & Hres & Hpt) Hk.
  destruct (Hpt k _ Hk) as (Hv & Hf & Hp & Hc & Hl).
  split_and!; [done..|]. rewrite Hc.
  assert (Hfresh : k ∉ ws).
  { intros Hin. apply list_elem_of_lookup_1 in Hin as [i Hi].
    destruct (Hw i k Hi) as [Hpass _]. by rewrite Hk in Hpass. }
  assert (Hroom : S (length ws) ≤ length xs); [|lia].
  apply (NoDup_bounded_length (k :: ws)).
  - by apply list.NoDup_cons.
  - intros x Hx. apply elem_of_cons in Hx as [->|Hx].
    + by apply lookup_lt_Some in Hv.
    + apply list_elem_of_lookup_1 in Hx as [i Hi].
      destruct (Hw i x Hi) as [_ (y & Hy & _)]. by apply lookup_lt_Some in Hy.
Qed.

(** One step of any goroutine keeps the invariant and never panics; it
    leaves the other goroutines where they are and takes at least one step
    off the remaining work of the one that ran. *)
Lemma cfilter_fire_inv (k : nat) (c : config (fmem T) (cfilter_pc T)) :
  cfilter_inv f xs c →
  ∃ c', fire (cfilter_step zero growcap f) k c = Some c'
        ∧ cfilter_inv f xs c'
        ∧ (∀ j, j ≠ k → goroutines c' !! j = goroutines c !! j)
        ∧ cfilter_todo (goroutines c' !! k) ≤ cfilter_todo (goroutines c !! k) - 1.
Proof.
  intros (a & ws & Harr & Hla & Hgs & Hwg & Hwr & Hres & Hpt). unfold fire.
  destruct (goroutines c !! k) as [[pc|]|] eqn:Hk.
  - assert (Hlt : k < length (goroutines c)) by (by apply lookup_lt_Some in Hk).
    pose proof (Hpt k pc Hk) as Hme.
    destruct pc as [v|v|h v|h]; simpl in Hme |- *.
    + (* the call of the predicate *)
      destruct (f v) eqn:Hf; simpl.
      * eexists. split; [done|]. simpl. split_and!.
        -- exists a, ws. simpl. split_and!; [done.. | | | | done |].
           ++ by rewrite length_insert.
           ++ by rewrite (live_insert_Some _ _ _ _ Hk).
           ++ apply cfilter_written_mono with (goroutines c); [|done].
              apply lookup_insert_mono. by rewrite Hk.
           ++ intros j pc. destruct (decide (j = k)) as [->|Hne].
              ** rewrite list_lookup_insert_eq by done. by intros [= <-].
              ** rewrite list_lookup_insert_ne by done. apply Hpt.
        -- intros j Hj. by rewrite list_lookup_insert_ne.
        -- rewrite list_lookup_insert_eq by done. simpl. lia.
      * rewrite Hwg, (live_insert_None _ _ _ Hk). simpl.
        eexists. split; [done|]. simpl. split_and!.
        -- exists a, ws. simpl. split_and!; [done.. | | | | done |].
           ++ by rewrite length_insert.
           ++ done.
           ++ apply cfilter_written_mono with (goroutines c); [|done].
              by apply lookup_insert_mono.
           ++ intros j pc. destruct (decide (j = k)) as [->|Hne].
              ** by rewrite list_lookup_insert_eq.
              ** rewrite list_lookup_insert_ne by done. apply Hpt.
        -- intros j Hj. by rewrite list_lookup_insert_ne.
        -- rewrite list_lookup_insert_eq by done. simpl. lia.
    + (* the read of result *)
      destruct Hme as [Hv Hf].
      eexists. split; [done|]. simpl. split_and!.
      * exists a, ws. simpl. split_and!; [done.. | | | | done |].
        -- by rewrite length_insert.
        -- by rewrite (live_insert_Some _ _ _ _ Hk).
        -- apply cfilter_written_mono with (goroutines c); [|done].
           apply lookup_insert_mono. by rewrite Hk.
        -- intros j pc. destruct (decide (j = k)) as [->|Hne].
           ++ rewrite list_lookup_insert_eq by done. by intros [= <-].
           ++ rewrite list_lookup_insert_ne by done. apply Hpt.
      * intros j Hj. by rewrite list_lookup_insert_ne.
      * rewrite list_lookup_insert_eq by done. simpl. lia.
    + (* inside append *)
      destruct Hme as (Hv & Hf & Hp & Hc & Hl). destruct Hwr as [Hnd Hw].
      assert (Hfresh : k ∉ ws).
      { intros Hin. apply list_elem_of_lookup_1 in Hin as [i Hi].
        destruct (Hw i k Hi) as [Hpass _]. by rewrite Hk in Hpass. }
      assert (Hroom : S (length ws) ≤ length xs).
      { apply (NoDup_bounded_length (k :: ws)).
        - by apply list.NoDup_cons.
        - intros x Hx. apply elem_of_cons in Hx as [->|Hx]; [lia|].
          apply list_elem_of_lookup_1 in Hx as [i Hi].
          destruct (Hw i x Hi) as [_ (y & Hy & _)]. by apply lookup_lt_Some in Hy. }
      destruct (writer_update ws (len h) k Hnd Hfresh Hl)
        as (ws' & Hnd' & Hle' & Hj' & Hlk').
      unfold append_to. rewrite Harr, Hp, Hc. simpl.
      destruct (Nat.ltb_spec (len h) (length xs)) as [_|]; [|lia].
      rewrite store_Some by lia. simpl.
      eexists. split; [done|]. simpl. split_and!.
      * exists (<[len h := v]> a), ws'. simpl. split_and!.
        -- done.
        -- by rewrite length_insert.
        -- by rewrite length_insert.
        -- by rewrite (live_insert_Some _ _ _ _ Hk).
        -- split; [done|]. intros i k' Hi.
           destruct (Hlk' i k' Hi) as [[-> ->]|[Hne Hi']].
           ++ rewrite !list_lookup_insert_eq by lia. split; [done|]. by exists v.
           ++ destruct (Hw i k' Hi') as [Hpass (x & Hx & Hfx & Hax)]. split.
              ** revert Hpass. apply lookup_insert_mono. done.
              ** exists x. by rewrite list_lookup_insert_ne.
        -- by apply hdr_ok_mono with ws.
        -- intros j pc. destruct (decide (j = k)) as [->|Hne].
           ++ rewrite list_lookup_insert_eq by done. intros [= <-].
              split_and!; simpl; [done..|lia].
           ++ rewrite list_lookup_insert_ne by done. intros Hj.
              apply cfilter_pc_ok_mono with ws; auto.
      * intros j Hj. by rewrite list_lookup_insert_ne.
      * rewrite list_lookup_insert_eq by done. simpl. lia.
    + (* the assignment to result *)
      rewrite Hwg, (live_insert_None _ _ _ Hk). simpl.
      eexists. split; [done|]. simpl. split_and!.
      * exists a, ws. simpl. split_and!; [done.. | | | | done |].
        -- by rewrite length_insert.
        -- done.
        -- apply cfilter_written_mono with (goroutines c); [|done].
           by apply lookup_insert_mono.
        -- intros j pc. destruct (decide (j = k)) as [->|Hne].
           ++ by rewrite list_lookup_insert_eq.
           ++ rewrite list_lookup_insert_ne by done. apply Hpt.
      * intros j Hj. by rewrite list_lookup_insert_ne.
      * rewrite list_lookup_insert_eq by done. simpl. lia.
  - exists c. split_and!; [done | | done | rewrite Hk; simpl; lia].
    exists a, ws. by split_and!.
  - exists c. split_and!; [done | | done | rewrite Hk; simpl; lia].
    exists a, ws. by split_and!.
Qed.

Lemma cfilter_run_inv (sched : list nat) :
  ∀ c : config (fmem T) (cfilter_pc T),
    cfilter_inv f xs c →
    ∃ c', run (cfilter_step zero growcap f) sched c = Some c'
          ∧ cfilter_inv f xs c'
          ∧ (∀ j, count_occ Nat.eq_dec sched j = 0
                  → goroutines c' !! j = goroutines c !! j)
          ∧ ∀ j, cfilter_todo (goroutines c' !! j)
                 ≤ cfilter_todo (goroutines c !! j) - count_occ Nat.eq_dec sched j.
Proof.
  induction sched as [|k rest IH]; intros c Hc; simpl.
  - exists c. split_and!; [done..|]. intros; lia.
  - destruct (cfilter_fire_inv k c Hc) as (c1 & -> & Hc1 & Hoth1 & Htodo1). simpl.
    destruct (IH c1 Hc1) as (c2 & Hrun & Hc2 & Hoth2 & Htodo2).
    exists c2. split_and!; [done.. | |].
    + intros j Hj. destruct (Nat.eq_dec k j) as [->|Hne]; [done|].
      rewrite Hoth2 by done. apply Hoth1. congruence.
    + intros j. specialize (Htodo2 j).
      destruct (Nat.eq_dec k j) as [->|Hne].
      * lia.
      * rewrite Hoth1 in Htodo2 by congruence. lia.
Qed.
End CFilterRun.

(** Along the interleavings of the steps of [cfilter_step], the elements
    of a returned slice are a sub-multiset of those of the sequential
    [Filter]. *)
Lemma cfilter_returned_submseteq {T} (zero : T) (growcap : nat → nat → nat)
    (sched : list nat) (xs : list T) (f : T → bool) (r : slice T) :
  CFilter zero growcap sched xs f = Returned r →
  ∃ s : slice T, Filter zero growcap xs f = Some s ∧ elems r ⊆+ elems s.
Proof.
  intros Hret. exists (mk_slice (List.filter f xs)).
  split; [apply Filter_filter|]. simpl.
  revert Hret. rewrite CFilter_eq.
  destruct (Nat.eqb_spec (length xs) 0) as [Hnil|Hne].
  - intros [= <-]. apply submseteq_nil_l.
  - unfold wait.
    destruct (cfilter_run_inv zero growcap f xs sched _ (cfilter_init_inv zero f xs))
      as (c & -> & Hc & _).
    destruct Hc as (a & ws & Harr & Hla & _ & _ & [Hnd Hw] & (Hp & _ & Hl) & _).
    destruct (Nat.eqb_spec (wg c) 0) as [_|]; [|done].
    unfold view. rewrite Harr, Hp. simpl. intros [= <-]. simpl.
    rewrite (take_written xs (len (result (shared c))) a ws Hl).
    + apply pick_filter_submseteq.
      * apply sublist_NoDup with ws; [done | apply sublist_take].
      * intros k Hk. apply elem_of_take in Hk as (i & Hi & _).
        destruct (Hw i k Hi) as [_ (x & Hx & Hfx & _)]. by exists x.
    + intros i k Hi. destruct (Hw i k Hi) as [_ (x & Hx & _ & Hax)]. by exists x.
Qed.

(** On a slice of int: whatever the schedule, the elements of a slice that
    [CFilter] returns are a sub-multiset of what the sequential [Filter]
    returns: every one is an input element that satisfies the predicate,
    and no input position contributes twice.  Elements can be lost or
    reordered; none is invented (no zero of the backing array shows) and
    none is duplicated.  (An int is one machine word: of two racing writes
    of an element one remains, whole, as [cfilter_step] has it; and all
    headers assigned to [result] have the pointer and capacity of [make],
    see [CFilter_barrier], so racing assignments of [result] differ in
    their length word only.  Of elements of several words the
    unsynchronised writes give no such guarantee.) *)
Theorem CFilter_int_returns_submultiset (growcap : nat → nat → nat)
    (sched : list nat) (xs : list Z) (f : Z → bool) (r : slice Z) :
  CFilter 0%Z growcap sched xs f = Returned r →
  ∃ s : slice Z, Filter 0%Z growcap xs f = Some s ∧ elems r ⊆+ elems s.
Proof. apply cfilter_returned_submseteq. Qed.

Lemma CFilter_int_returns_submultiset_witness :
  ∃ s : slice Z,
    Filter 0%Z Nat.max [1; 3]%Z isOdd = Some s
    ∧ elems (mk_slice [3]%Z) ⊆+ elems s.
Proof.
  apply (CFilter_int_returns_submultiset Nat.max [0; 1; 0; 1; 0; 0; 1; 1]
           [1; 3]%Z isOdd (mk_slice [3]%Z)).
  vm_compute. reflexivity.
Defined.

(** No schedule makes a [CFilter] call panic: the WaitGroup counter never
    goes negative and [append] never exceeds the capacity reserved by
    [make].  In every state a run reaches the memory holds the one backing
    array of [make], of the length of the input; [result] and every header
    a goroutine is about to assign point to it with its capacity; and a
    goroutine inside [append] holds a header with room for one more
    element, so [append] writes in place and never allocates.  The call returns only
    after every goroutine has run, and is still waiting at the barrier only
    when some goroutine was given fewer than four steps. *)
Theorem CFilter_barrier {T} (zero : T) (growcap : nat → nat → nat)
    (sched : list nat) (xs : list T) (f : T → bool) :
  match CFilter zero growcap sched xs f with
  | Returned _ => ∀ k : nat, k < length xs → 1 ≤ count_occ Nat.eq_dec sched k
  | Blocked => ∃ k : nat, k < length xs ∧ count_occ Nat.eq_dec sched k < 4
  | Panicked => False
  end
  ∧ ∃ c : config (fmem T) (cfilter_pc T),
      run (cfilter_step zero growcap f) sched (cfilter_init zero xs) = Some c
      ∧ (∃ a : list T, arrays (shared c) = [a] ∧ length a = length xs)
      ∧ ptr (result (shared c)) = 0 ∧ cap (result (shared c)) = length xs
      ∧ (∀ (k : nat) (h : header) (v : T),
           goroutines c !! k = Some (Some (FAppend h v)) →
           ptr h = 0 ∧ cap h = length xs ∧ len h < cap h)
      ∧ ∀ (k : nat) (h : header),
          goroutines c !! k = Some (Some (FStore h)) →
          ptr h = 0 ∧ cap h = length xs ∧ len h ≤ cap h.
Proof.
  destruct (cfilter_run_inv zero growcap f xs sched _ (cfilter_init_inv zero f xs))
    as (c & Hrun & Hc & Hoth & Htodo).
  split.
  - rewrite CFilter_eq. destruct (Nat.eqb_spec (length xs) 0) as [Hnil|Hne].
    + intros k Hk. lia.
    + unfold wait. rewrite Hrun.
      destruct Hc as (a & ws & Harr & _ & Hgs & Hwg & _ & (Hp & _ & _) & _).
      unfold view. rewrite Harr, Hp. simpl.
      destruct (Nat.eqb_spec (wg c) 0) as [H0|Hpos]; rewrite Hwg in *.
      * intros k Hk.
        destruct (count_occ Nat.eq_dec sched k) eqn:Hcount; [exfalso | lia].
        pose proof (cfilter_init_todo zero xs k Hk) as Hinit.
        rewrite <- (Hoth k Hcount) in Hinit.
        destruct (goroutines c !! k) as [g|] eqn:Hg; [|done].
        by rewrite (live_zero _ _ _ H0 Hg) in Hinit.
      * destruct (live_pos _ Hpos) as (k & pc & Hk).
        assert (Hlt : k < length xs)
          by (rewrite <- Hgs; by apply lookup_lt_Some in Hk).
        exists k. split; [done|].
        specialize (Htodo k). rewrite Hk, (cfilter_init_todo zero xs k Hlt) in Htodo.
        destruct pc; simpl in Htodo; lia.
  - exists c. split; [done|]. split_and!.
    + destruct Hc as (a & ws & Harr & Hla & _). by exists a.
    + by destruct Hc as (a & ws & _ & _ & _ & _ & _ & (Hp & _ & _) & _).
    + by destruct Hc as (a & ws & _ & _ & _ & _ & _ & (_ & Hcap & _) & _).
    + intros k h v Hk. by apply (cfilter_inv_room f xs c k h v).
    + intros k h Hk.
      destruct Hc as (a & ws & _ & Hla & _ & _ & [_ Hw] & _ & Hpt).
      destruct (Hpt k _ Hk) as (Hp & Hcap & Hl). split_and!; [done..|].
      rewrite Hcap, <- Hla.
      destruct (decide (len h ≤ length a)) as [|Hgt]; [done | exfalso].
      destruct (lookup_lt_is_Some_2 ws (length a)) as [k' Hk']; [lia|].
      destruct (Hw _ _ Hk') as [_ (x & _ & _ & Hx)].
      apply lookup_lt_Some in Hx. lia.
Qed.

Lemma CFilter_barrier_witness :
  ptr (Header 0 0 2) = 0 ∧ cap (Header 0 0 2) = length [1; 3]%Z
  ∧ len (Header 0 0 2) < cap (Header 0 0 2).
Proof.
  destruct (proj2 (CFilter_barrier 0%Z Nat.max [0; 0; 1; 1] [1; 3]%Z isOdd))
    as (c & Hrun & _ & _ & _ & Hroom & _).
  apply (Hroom 0 (Header 0 0 2) 1%Z).
  vm_compute in Hrun. injection Hrun as <-. reflexivity.
Defined.

(** ** The barrier of CMap *)

(** [CMap] returns under exactly the schedules that give each of its
    goroutines its two steps (the call of [f], the assignment): the barrier
    opens once all have ended and not before. *)
Theorem CMap_returns_iff_all_ran {T U} (zero : U) (sched : list nat)
    (xs : list T) (f : T → U) :
  (∃ r : slice U, CMap zero sched xs f = Returned r)
  ↔ ∀ k : nat, k < length xs → 2 ≤ count_occ Nat.eq_dec sched k.
Proof.
  rewrite CMap_eq. destruct (Nat.eqb_spec (length xs) 0) as [Hnil|Hne].
  - split; [intros _ k Hk; lia | by eexists].
  - unfold wait.
    destruct (cmap_run_inv f xs sched _ (cmap_init_inv zero f xs))
      as (c & -> & (_ & Hgs & Hwg & _) & Htodo).
    destruct (Nat.eqb_spec (wg c) 0) as [H0|Hpos]; rewrite Hwg in *.
    + split; [intros _ k Hk | by eexists].
      specialize (Htodo k). rewrite (cmap_init_todo zero xs k Hk) in Htodo.
      destruct (lookup_lt_is_Some_2 (goroutines c) k) as [g Hg]; [lia|].
      rewrite Hg, (live_zero _ _ _ H0 Hg) in Htodo. simpl in Htodo. lia.
    + split; [by intros [r [=]] | intros Hall; exfalso].
      destruct (live_pos _ Hpos) as (k & pc & Hk).
      assert (Hlt : k < length xs) by (rewrite <- Hgs; by apply lookup_lt_Some in Hk).
      specialize (Htodo k). specialize (Hall k Hlt).
      rewrite Hk, (cmap_init_todo zero xs k Hlt) in Htodo.
      destruct pc; simpl in Htodo; lia.
Qed.

Lemma CMap_returns_iff_all_ran_witness :
  ∃ r : slice Z, CMap 0%Z [1; 0; 0; 1] [5; 6]%Z double = Returned r.
Proof.
  apply (proj2 (CMap_returns_iff_all_ran 0%Z [1; 0; 0; 1] [5; 6]%Z double)).
  intros [|[|k]] Hk; simpl in *; lia.
Defined.

(** ** The sequential operations together *)

(** The sequential [Filter] returns exactly the elements that satisfy the
    predicate, each as often as it occurs and in input order.  Its [append]
    never outgrows the capacity reserved by [make]: when the loop ends the
    memory still holds the one backing array of [make], of the length of
    the input, and [result] still points to it with that capacity; no
    larger array was ever allocated, whatever the growth policy. *)
Theorem Filter_keeps_matching_in_order {T} (zero : T) (growcap : nat → nat → nat)
    (xs : list T) (f : T → bool) :
  Filter zero growcap xs f = Some (mk_slice (List.filter f xs))
  ∧ ∃ a : list T,
      Filter_run zero growcap xs f
      = Some ([a], Header 0 (length (List.filter f xs)) (length xs))
      ∧ length a = length xs.
Proof.
  split; [apply Filter_filter|].
  destruct (Filter_loop_filter zero growcap f xs (length xs)
              (make zero (length xs)) 0) as (a & Hrun & Hlen & _);
    [apply length_replicate | lia |].
  by exists a.
Qed.

(** Mapping [f] and then [g] is mapping their composition. *)
Theorem Map_fusion {T U V} (zeroU : U) (zeroV : V) (xs : list T)
    (f : T → U) (g : U → V) :
  ∃ r : slice U,
    Map zeroU xs f = Some r
    ∧ Map zeroV (elems r) g = Map zeroV xs (g ∘ f).
Proof.
  exists (mk_slice (f <$> xs)). split; [apply Map_fmap|].
  simpl. rewrite !Map_fmap. by rewrite list_fmap_compose.
Qed.

(** Reducing a concatenation is reducing its second part from the result
    of reducing its first part. *)
Theorem Reduce_concat {T R} (xs ys : list T) (reducer : R → T → R) (initial : R) :
  Reduce (xs ++ ys) reducer initial = Reduce ys reducer (Reduce xs reducer initial).
Proof. apply Reduce_app. Qed.

(** The pipeline Map, then Filter, then Reduce is one pass over the input:
    a single Reduce that folds in [f x] whenever [f x] satisfies the
    predicate. *)
Theorem Map_Filter_Reduce_one_pass {T U R} (zero : U) (growcap : nat → nat → nat)
    (xs : list T) (f : T → U) (p : U → bool) (reducer : R → U → R) (initial : R) :
  ∃ (m s : slice U),
    Map zero xs f = Some m
    ∧ Filter zero growcap (elems m) p = Some s
    ∧ Reduce (elems s) reducer initial
      = Reduce xs (λ acc x, if p (f x) then reducer acc (f x) else acc) initial.
Proof.
  exists (mk_slice (f <$> xs)), (mk_slice (List.filter p (f <$> xs))).
  split_and!; [apply Map_fmap | apply Filter_filter |].
  simpl. unfold Reduce. revert initial.
  induction xs as [|x xs IH]; intros initial; simpl; [done|].
  destruct (p (f x)); simpl; apply IH.
Qed.

(** [ForEach] calls [f] once on every element, in input order: a callback
    that appends to a log leaves the log extended by the whole input. *)
Theorem ForEach_visits_in_order {T A} (xs : list T) (g : T → A) (log : list A) :
  ForEach xs (λ v l, l ++ [g v]) log = log ++ (g <$> xs).
Proof.
  revert log. induction xs as [|x xs IH]; intros log; simpl.
  - by rewrite app_nil_r.
  - by rewrite IH, <- app_assoc.
Qed.

(** [Contains] answers true exactly when some position of the list holds
    an element equal to the target. *)
Theorem Contains_iff_some_position {T} (eqb : T → T → bool) (xs : list T) (t : T) :
  Contains eqb xs t = true ↔ ∃ (i : nat) (v : T), xs !! i = Some v ∧ eqb v t = true.
Proof.
  induction xs as [|x xs IH]; simpl.
  - split; [done | by intros ([|i] & v & Hi & _)].
  - destruct (eqb x t) eqn:Hx.
    + split; [intros _ | done]. by exists 0, x.
    + rewrite IH. split.
      * intros (i & v & Hi & Hv). by exists (S i), v.
      * intros ([|i] & v & Hi & Hv); simpl in Hi.
        -- injection Hi as ->. congruence.
        -- by exists i, v.
Qed.

(** Starting the index at [i] only shifts a found position. *)
Lemma IndexOf_loop_shift {T} (eqb : T → T → bool) (vs : list T) (t : T) :
  ∀ i : Z,
    IndexOf_loop eqb i vs t
    = match IndexOf_loop eqb 0 vs t with
      | (j, None) => ((i + j)%Z, None)
      | r => r
      end.
Proof.
  induction vs as [|v rest IH]; intros i; simpl; [done|].
  destruct (eqb v t).
  - by rewrite Z.add_0_r.
  - rewrite (IH (i + 1)%Z), (IH (0 + 1)%Z).
    destruct (IndexOf_loop eqb 0 rest t) as [j [e|]]; [done|].
    f_equal. lia.
Qed.

(** Searching a concatenation: a target found in the first list is
    reported there, whatever follows; otherwise the answer is that of the
    second list, a found position moved up by the length of the first. *)
Theorem IndexOf_concat {T} (eqb : T → T → bool) (xs ys : list T) (t : T) :
  IndexOf eqb (xs ++ ys) t
  = match IndexOf eqb xs t with
    | (i, None) => (i, None)
    | (_, Some _) =>
        match IndexOf eqb ys t with
        | (j, None) => ((Z.of_nat (length xs) + j)%Z, None)
        | r => r
        end
    end.
Proof.
  unfold IndexOf.
  assert (Hgen : ∀ i : Z,
             IndexOf_loop eqb i (xs ++ ys) t
             = match IndexOf_loop eqb i xs t with
               | (j, None) => (j, None)
               | (_, Some _) => IndexOf_loop eqb (i + Z.of_nat (length xs))%Z ys t
               end).
  { induction xs as [|x xs IH]; intros i; simpl.
    - by rewrite Z.add_0_r.
    - destruct (eqb x t); [done|]. rewrite IH.
      destruct (IndexOf_loop eqb (i + 1) xs t) as [j [e|]]; [|done].
      f_equal. lia. }
  rewrite Hgen.
  destruct (IndexOf_loop eqb 0 xs t) as [i [e|]]; [|done].
  apply IndexOf_loop_shift.
Qed.

(** The odd-number predicate of the tests and doc comments, [x%2 == 1],
    holds of the positive odd numbers only: Go's [%] takes the sign of the
    dividend, so a negative odd number has remainder -1 and is rejected. *)
Theorem isOdd_positive_only (x : Z) :
  isOdd x = true ↔ (0 < x)%Z ∧ Z.odd x = true.
Proof.
  unfold isOdd, int_rem. rewrite Z.eqb_eq, Z.odd_spec. unfold Z.Odd.
  pose proof (Z.quot_rem' x 2) as Hqr.
  split.
  - intros Hrem. split.
    + destruct (Z.le_gt_cases x 0) as [Hle|Hgt]; [|lia].
      pose proof (Z.rem_nonpos x 2 ltac:(lia) Hle). lia.
    + exists (x ÷ 2)%Z. lia.
  - intros [Hpos [m Hm]].
    pose proof (Z.rem_bound_pos x 2 ltac:(lia) ltac:(lia)). lia.
Qed.

Lemma isOdd_positive_only_witness : (0 < 7)%Z ∧ Z.odd 7 = true.
Proof. apply (proj1 (isOdd_positive_only 7)). reflexivity. Defined.

(** ** Goroutines run one after the other *)

Lemma insert_middle {A} (l1 l2 : list A) (x y : A) :
  <[length l1 := y]> (l1 ++ x :: l2) = l1 ++ y :: l2.
Proof.
  rewrite insert_app_r_alt by lia. by rewrite Nat.sub_diag.
Qed.

Lemma fire_at {Sh Pc} (step : Pc → Sh → option (Sh * option Pc))
    (pre post : list (option Pc)) (pc : Pc) (sh sh' : Sh) (n : nat)
    (next : option Pc) :
  step pc sh = Some (sh', next) →
  fire step (length pre) (Config sh n (pre ++ Some pc :: post))
  = match next with
    | Some pc' => Some (Config sh' n (pre ++ Some pc' :: post))
    | None => m ← wg_done n; Some (Config sh' m (pre ++ None :: post))
    end.
Proof.
  intros Hstep. unfold fire. simpl.
  rewrite list_lookup_middle by done. rewrite Hstep. simpl.
  destruct next; [|destruct n]; simpl; by rewrite ?insert_middle.
Qed.

Lemma fire_ended {Sh Pc} (step : Pc → Sh → option (Sh * option Pc))
    (pre post : list (option Pc)) (sh : Sh) (n : nat) :
  fire step (length pre) (Config sh n (pre ++ None :: post))
  = Some (Config sh n (pre ++ None :: post)).
Proof. unfold fire. simpl. by rewrite list_lookup_middle. Qed.

Lemma creduce_in_turn {T R} (reducer : R → T → R) (vs : list T) :
  ∀ (pre : list (option (creduce_pc T R))) (acc : R),
    run (creduce_step reducer)
        (flat_map (λ k, replicate 3 k) (seq (length pre) (length vs)))
        (Config acc (length vs) (pre ++ ((λ v, Some (RLoad v)) <$> vs)))
    = Some (Config (Reduce vs reducer acc) 0 (pre ++ replicate (length vs) None)).
Proof.
  induction vs as [|v vs IH]; intros pre acc; [done|].
  cbn [length seq flat_map replicate app fmap list_fmap run].
  rewrite (fire_at _ pre _ (RLoad v) acc acc _ (Some (RCall acc v))) by done.
  cbn [mbind option_bind run].
  rewrite (fire_at _ pre _ (RCall acc v) acc acc _ (Some (RStore (reducer acc v))))
    by done.
  cbn [mbind option_bind run].
  rewrite (fire_at _ pre _ (RStore (reducer acc v)) acc (reducer acc v) _ None)
    by done.
  cbn [mbind option_bind wg_done].
  rewrite (cons_middle None pre), app_assoc.
  replace (S (length pre)) with (length (pre ++ [None]))
    by (rewrite length_app; simpl; lia).
  etrans; [exact (IH (pre ++ [None]) (reducer acc v))|].
  by rewrite <- app_assoc.
Qed.

(** When the goroutines run one after the other in the order of the input,
    [CReduce] returns what the sequential [Reduce] returns: the lost
    updates need goroutines that overlap. *)
Theorem CReduce_in_turn {T R} (xs : list T) (reducer : R → T → R) (initial : R) :
  CReduce (in_turn 3 (length xs)) xs reducer initial
  = Returned (Reduce xs reducer initial).
Proof.
  rewrite CReduce_eq. unfold in_turn. destruct (Nat.eqb_spec (length xs) 0) as [Hnil|Hne].
  - by destruct xs.
  - unfold wait.
    assert (Hrun : run (creduce_step reducer)
                     (flat_map (λ k, replicate 3 k) (seq 0 (length xs)))
                     (creduce_init xs initial)
                   = Some (Config (Reduce xs reducer initial) 0
                                  (replicate (length xs) None)))
      by exact (creduce_in_turn reducer xs [] initial).
    by rewrite Hrun.
Qed.

Lemma cfilter_in_turn {T} (zero : T) (growcap : nat → nat → nat) (f : T → bool)
    (n : nat) (vs : list T) :
  ∀ (pre : list (option (cfilter_pc T))) (a : list T) (l : nat),
    length a = n → l + length vs ≤ n →
    ∃ a' : list T,
      run (cfilter_step zero growcap f)
          (flat_map (λ k, replicate 4 k) (seq (length pre) (length vs)))
          (Config (Fmem [a] (Header 0 l n)) (length vs)
                  (pre ++ ((λ v, Some (FCall v)) <$> vs)))
      = Some (Config (Fmem [a'] (Header 0 (l + length (List.filter f vs)) n)) 0
                     (pre ++ replicate (length vs) None))
      ∧ length a' = n
      ∧ take (l + length (List.filter f vs)) a' = take l a ++ List.filter f vs.
Proof.
  induction vs as [|v vs IH]; intros pre a l Ha Hl.
  - exists a. simpl. by rewrite !Nat.add_0_r, !app_nil_r.
  - cbn [length seq flat_map replicate app fmap list_fmap run List.filter].
    simpl in Hl. destruct (f v) eqn:Hf.
    + (* the element is kept: call, read, append, assign *)
      rewrite (fire_at _ pre _ (FCall v) _ (Fmem [a] (Header 0 l n)) _
                 (Some (FLoad v))) by (simpl; by rewrite Hf).
      cbn [mbind option_bind run].
      rewrite (fire_at _ pre _ (FLoad v) _ (Fmem [a] (Header 0 l n)) _
                 (Some (FAppend (Header 0 l n) v))) by done.
      cbn [mbind option_bind run].
      rewrite (fire_at _ pre _ (FAppend (Header 0 l n) v) _
                 (Fmem [<[l := v]> a] (Header 0 l n)) _
                 (Some (FStore (Header 0 (S l) n)))).
      2:{ simpl. unfold append_to. simpl.
          destruct (Nat.ltb_spec l n); [|lia].
          by rewrite store_Some by lia. }
      cbn [mbind option_bind run].
      rewrite (fire_at _ pre _ (FStore (Header 0 (S l) n)) _
                 (Fmem [<[l := v]> a] (Header 0 (S l) n)) _ None) by done.
      cbn [mbind option_bind wg_done].
      rewrite (cons_middle None pre), app_assoc.
      replace (S (length pre)) with (length (pre ++ [None]))
        by (rewrite length_app; simpl; lia).
      destruct (IH (pre ++ [None]) (<[l := v]> a) (S l)) as (a' & Hrun & Hlen & Htake);
        [by rewrite length_insert | lia |].
      exists a'. split_and!; [| done |].
      * etrans; [exact Hrun|]. simpl.
        rewrite <- app_assoc. do 3 f_equal. f_equal. lia.
      * simpl. replace (l + S (length (List.filter f vs)))
          with (S l + length (List.filter f vs)) by lia.
        rewrite Htake, (take_S_r _ _ v) by (apply list_lookup_insert_eq; lia).
        by rewrite take_insert_ge, <- app_assoc by lia.
    + (* the element is dropped: the goroutine ends after the call *)
      rewrite (fire_at _ pre _ (FCall v) _ (Fmem [a] (Header 0 l n)) _ None)
        by (simpl; by rewrite Hf).
      cbn [mbind option_bind wg_done run].
      do 3 (rewrite fire_ended; cbn [mbind option_bind run]).
      rewrite (cons_middle None pre), app_assoc.
      replace (S (length pre)) with (length (pre ++ [None]))
        by (rewrite length_app; simpl; lia).
      destruct (IH (pre ++ [None]) a l) as (a' & Hrun & Hlen & Htake); [done | lia |].
      exists a'. split_and!; [| done..].
      etrans; [exact Hrun|]. by rewrite <- app_assoc.
Qed.

(** When the goroutines run one after the other in the order of the input,
    [CFilter] returns the elements the sequential [Filter] returns, in the
    same order: the lost elements need goroutines that overlap. *)
Theorem CFilter_in_turn {T} (zero : T) (growcap : nat → nat → nat)
    (xs : list T) (f : T → bool) :
  ∃ (r s : slice T),
    CFilter zero growcap (in_turn 4 (length xs)) xs f = Returned r
    ∧ Filter zero growcap xs f = Some s
    ∧ elems r = elems s.
Proof.
  pose proof (CFilter_eq zero growcap (in_turn 4 (length xs)) xs f) as Heq.
  unfold in_turn in *.
  destruct (Nat.eqb_spec (length xs) 0) as [Hnil|Hne].
  - exists nil_slice, (mk_slice []). rewrite Heq. by destruct xs.
  - exists (mk_slice (List.filter f xs)), (mk_slice (List.filter f xs)).
    rewrite Heq. split_and!; [|apply Filter_filter | done].
    destruct (cfilter_in_turn zero growcap f (length xs) xs []
                (make zero (length xs)) 0) as (a' & Hrun & Hlen & Htake);
      [apply length_replicate | lia |].
    unfold wait.
    assert (Hrun' : run (cfilter_step zero growcap f)
                      (flat_map (λ k, replicate 4 k) (seq 0 (length xs)))
                      (cfilter_init zero xs)
                    = Some (Config (Fmem [a'] (Header 0 (length (List.filter f xs))
                                                      (length xs))) 0
                                   (replicate (length xs) None)))
      by exact Hrun.
    rewrite Hrun'. simpl. unfold view. simpl.
    simpl in Htake. by rewrite Htake.
Qed.

(** ** Where the races are *)

Lemma race_among_pair (ls : list (list access)) :
  ∀ (i j : nat) (g h : list access) (a b : access),
    i < j → ls !! i = Some g → ls !! j = Some h →
    a ∈ g → b ∈ h → conflict a b = true →
    race_among ls = true.
Proof.
  induction ls as [|g0 rest IH]; intros i j g h a b Hij Hi Hj Ha Hb Hab; [done|].
  simpl. destruct i as [|i], j as [|j]; try lia; simpl in Hi, Hj.
  - injection Hi as ->. apply orb_true_intro. left.
    apply existsb_exists. exists h. split.
    + apply list_elem_of_In. by apply list_elem_of_lookup_2 with j.
    + apply existsb_exists. exists a. split; [by apply list_elem_of_In|].
      apply existsb_exists. exists b. split; [by apply list_elem_of_In | done].
  - apply orb_true_intro. right.
    apply (IH i j g h a b); [lia | done..].
Qed.

Lemma fire_lookup {Sh Pc} (step : Pc → Sh → option (Sh * option Pc))
    (k : nat) (c : config Sh Pc) (pc pc' : Pc) (m : Sh) :
  goroutines c !! k = Some (Some pc) →
  step pc (shared c) = Some (m, Some pc') →
  fire step k c = Some (Config m (wg c) (<[k := Some pc']> (goroutines c))).
Proof. intros Hk Hstep. unfold fire. by rewrite Hk, Hstep. Qed.

(** On every input with two or more elements a [CReduce] run reaches a
    data race on [acc]: one goroutine is about to assign it while another
    is about to read it. *)
Theorem CReduce_races_from_two {T R} (xs : list T) (reducer : R → T → R)
    (initial : R) :
  2 ≤ length xs →
  ∃ (sched : list nat) (c : config R (creduce_pc T R)),
    run (creduce_step reducer) sched (creduce_init xs initial) = Some c
    ∧ has_race creduce_pending c = true.
Proof.
  intros Hlen. destruct xs as [|x [|y rest]]; simpl in Hlen; try lia.
  exists [0; 0]. eexists. split; reflexivity.
Qed.

Lemma CReduce_races_from_two_witness :
  ∃ (sched : list nat) (c : config Z (creduce_pc Z Z)),
    run (creduce_step sum) sched (creduce_init [1; 2; 3]%Z 0%Z) = Some c
    ∧ has_race creduce_pending c = true.
Proof.
  apply (CReduce_races_from_two [1; 2; 3]%Z sum 0%Z). simpl. lia.
Defined.

(** On every input in which two positions hold elements that satisfy the
    predicate a [CFilter] run reaches a data race on [result]: the
    goroutine of one is about to assign it while the goroutine of the other
    is about to read it. *)
Theorem CFilter_races_from_two {T} (zero : T) (growcap : nat → nat → nat)
    (xs : list T) (f : T → bool) (i j : nat) (x y : T) :
  xs !! i = Some x → xs !! j = Some y → i ≠ j →
  f x = true → f y = true →
  ∃ (sched : list nat) (c : config (fmem T) (cfilter_pc T)),
    run (cfilter_step zero growcap f) sched (cfilter_init zero xs) = Some c
    ∧ has_race cfilter_pending c = true.
Proof.
  intros Hi Hj Hij Hfx Hfy.
  assert (Hilt : i < length xs) by (by apply lookup_lt_Some in Hi).
  assert (Hjlt : j < length xs) by (by apply lookup_lt_Some in Hj).
  set (n := length xs) in *.
  set (gs0 := goroutines (cfilter_init zero xs)).
  assert (Hlen0 : length gs0 = n) by apply length_fmap.
  assert (Hi0 : gs0 !! i = Some (Some (FCall x))).
  { unfold gs0, cfilter_init. simpl. by rewrite list_lookup_fmap, Hi. }
  assert (Hj0 : gs0 !! j = Some (Some (FCall y))).
  { unfold gs0, cfilter_init. simpl. by rewrite list_lookup_fmap, Hj. }
  set (m0 := Fmem [make zero n] (Header 0 0 n)).
  set (m1 := Fmem [<[0 := x]> (make zero n)] (Header 0 0 n)).
  set (gs1 := <[i := Some (FLoad x)]> gs0).
  set (gs2 := <[i := Some (FAppend (Header 0 0 n) x)]> gs1).
  set (gs3 := <[i := Some (FStore (Header 0 1 n))]> gs2).
  set (gs4 := <[j := Some (FLoad y)]> gs3).
  exists [i; i; i; j], (Config m1 n gs4). split.
  - cbn [run].
    rewrite (fire_lookup _ i (cfilter_init zero xs) (FCall x) (FLoad x) m0 Hi0)
      by (simpl; by rewrite Hfx).
    cbn [mbind option_bind]. fold gs0 gs1.
    rewrite (fire_lookup _ i (Config m0 n gs1) (FLoad x)
               (FAppend (Header 0 0 n) x) m0);
      [| apply list_lookup_insert_eq; lia | done].
    cbn [mbind option_bind wg goroutines]. fold gs2.
    rewrite (fire_lookup _ i (Config m0 n gs2) (FAppend (Header 0 0 n) x)
               (FStore (Header 0 1 n)) m1).
    2:{ apply list_lookup_insert_eq. unfold gs1. rewrite length_insert. lia. }
    2:{ simpl. unfold append_to, make. simpl.
        destruct (Nat.ltb_spec 0 n); [|lia].
        rewrite store_Some by (rewrite length_replicate; lia). done. }
    cbn [mbind option_bind wg goroutines]. fold gs3.
    rewrite (fire_lookup _ j (Config m1 n gs3) (FCall y) (FLoad y) m1).
    2:{ unfold gs3, gs2, gs1. simpl. by rewrite !list_lookup_insert_ne. }
    2:{ simpl. by rewrite Hfy. }
    done.
  - unfold has_race. simpl.
    assert (Hi4 : (accesses_of cfilter_pending <$> gs4) !! i
                  = Some [Access Var true]).
    { rewrite list_lookup_fmap. unfold gs4.
      rewrite list_lookup_insert_ne by done. unfold gs3.
      rewrite list_lookup_insert_eq; [done|].
      unfold gs2, gs1. rewrite !length_insert. lia. }
    assert (Hj4 : (accesses_of cfilter_pending <$> gs4) !! j
                  = Some [Access Var false]).
    { rewrite list_lookup_fmap. unfold gs4.
      rewrite list_lookup_insert_eq; [done|].
      unfold gs3, gs2, gs1. rewrite !length_insert. lia. }
    destruct (Nat.lt_total i j) as [Hlt|[->|Hgt]]; [|done|].
    + apply (race_among_pair _ i j _ _ (Access Var true) (Access Var false)
               Hlt Hi4 Hj4); [| | done]; by apply list_elem_of_singleton.
    + apply (race_among_pair _ j i _ _ (Access Var false) (Access Var true)
               Hgt Hj4 Hi4); [| | done]; by apply list_elem_of_singleton.
Qed.

Lemma CFilter_races_from_two_witness :
  ∃ (sched : list nat) (c : config (fmem Z) (cfilter_pc Z)),
    run (cfilter_step 0%Z Nat.max isOdd) sched (cfilter_init 0%Z [2; 5; 4; 7]%Z)
    = Some c
    ∧ has_race cfilter_pending c = true.
Proof.
  apply (CFilter_races_from_two 0%Z Nat.max [2; 5; 4; 7]%Z isOdd 3 1 7%Z 5%Z);
    (reflexivity || lia).
Defined.

End going.
